(** * Min/max column statistics of the Parquet scanner and writer

    A shallow embedding of [be/src/exec/parquet-column-stats.inline.h]:
    the accumulator [ColumnStats<T>] (Update, Merge, BytesNeeded,
    EncodeToThrift), its plain-value codec wrappers, and the
    specialisations for [bool], [TimestampValue] and [StringValue].

    Conventions of the embedding.
    - A member function that mutates [*this] is a function from the old
      object to the new one.
    - [operator<] on the template parameter is the class [Less]; the
      properties of the order that a proof needs are stated in [LessStrict],
      [LessWeak] and [LessTotal].
    - [DCHECK] is embedded as a checked assertion: a violated one ends the
      run with [DcheckFailed].
    - Bytes are [Byte.byte]; a [std::string] passed by value is a list of
      bytes; memory referenced by a [StringValue] is a map from blocks to
      byte lists. *)

From Stdlib Require Import ZArith List Bool Lia String.
From coqutil Require Import Byte Word.LittleEndianList.
From stdpp Require Import base option list gmap.

Local Open Scope Z_scope.

#[global] Instance byte_eq_dec : EqDecision byte := Byte.byte_eq_dec.

(** ** Outcome of a run that may hit a DCHECK *)

Inductive outcome (A : Type) : Type :=
| Done (a : A)
| DcheckFailed.
Arguments Done {A} a.
Arguments DcheckFailed {A}.

#[global] Instance outcome_ret : MRet outcome := @Done.
#[global] Instance outcome_bind : MBind outcome := λ A B k x,
  match x with
  | Done a => k a
  | DcheckFailed => DcheckFailed
  end.

Definition DCHECK (cond : bool) : outcome unit :=
  if cond then Done tt else DcheckFailed.

(** ** The order of the template parameter *)

(** [less a b] is the C++ expression [a < b]. *)
Class Less (T : Type) := less : T → T → bool.

(** [std::min(a, b)] is [(b < a) ? b : a]; [std::max(a, b)] is
    [(a < b) ? b : a]. *)
Definition std_min {T} `{Less T} (a b : T) : T := if less b a then b else a.
Definition std_max {T} `{Less T} (a b : T) : T := if less a b then b else a.

(** [a <= b] in the order: [b] is not below [a]. *)
Definition less_eq {T} `{Less T} (a b : T) : Prop := less b a = false.

(** Neither is below the other. *)
Definition equiv_less {T} `{Less T} (a b : T) : Prop :=
  less a b = false ∧ less b a = false.

Class LessStrict (T : Type) `{Less T} : Prop := {
  less_irrefl : ∀ a : T, less a a = false;
  less_trans : ∀ a b c : T, less a b = true → less b c = true → less a c = true
}.

(** A strict weak order: incomparable elements form equivalence classes. *)
Class LessWeak (T : Type) `{Less T} : Prop := {
  weak_strict :: LessStrict T;
  less_negtrans : ∀ a b c : T,
    less a b = false → less b c = false → less a c = false
}.

(** A strict total order: incomparable elements are equal. *)
Class LessTotal (T : Type) `{Less T} : Prop :=
  less_total : ∀ a b : T, less a b = false → less b a = false → a = b.

(** [m] is a least (greatest) element of the values [l]. *)
Definition is_min {T} `{Less T} (l : list T) (m : T) : Prop :=
  m ∈ l ∧ ∀ x, x ∈ l → less_eq m x.
Definition is_max {T} `{Less T} (l : list T) (m : T) : Prop :=
  m ∈ l ∧ ∀ x, x ∈ l → less_eq x m.

(** ** ColumnStats<T>: the generic accumulator *)

Module Generic.

Record ColumnStats (T : Type) : Type := mkStats {
  has_values_ : bool;
  min_value_ : T;
  max_value_ : T;
  plain_encoded_value_size_ : Z
}.
Arguments mkStats {T}.
Arguments has_values_ {T}.
Arguments min_value_ {T}.
Arguments max_value_ {T}.
Arguments plain_encoded_value_size_ {T}.

Section Accumulator.
Context {T : Type} `{Less T}.

(** ColumnStats<T>::Update *)
Definition Update (s : ColumnStats T) (v : T) : ColumnStats T :=
  if negb (has_values_ s) then
    mkStats true v v (plain_encoded_value_size_ s)
  else
    mkStats (has_values_ s)
            (std_min (min_value_ s) v)
            (std_max (max_value_ s) v)
            (plain_encoded_value_size_ s).

(** ColumnStats<T>::Merge.  [other] already has the static type
    ColumnStats<T>, so the DCHECK on the dynamic_cast holds. *)
Definition Merge (s cs : ColumnStats T) : ColumnStats T :=
  if negb (has_values_ cs) then s
  else if negb (has_values_ s) then
    mkStats true (min_value_ cs) (max_value_ cs) (plain_encoded_value_size_ s)
  else
    mkStats (has_values_ s)
            (std_min (min_value_ s) (min_value_ cs))
            (std_max (max_value_ s) (max_value_ cs))
            (plain_encoded_value_size_ s).

(** Feeding a sequence of values, first to last. *)
Definition UpdateAll (s : ColumnStats T) (l : list T) : ColumnStats T :=
  fold_left Update l s.

(** The states an accumulator can be in: created empty, then changed only
    by Update and by Merge with another accumulator of the same type. *)
Inductive reachable : ColumnStats T → Prop :=
| reach_new s : has_values_ s = false → reachable s
| reach_update s v : reachable s → reachable (Update s v)
| reach_merge s cs : reachable s → reachable cs → reachable (Merge s cs).

(** The invariant of the data model. *)
Definition ordered (s : ColumnStats T) : Prop :=
  has_values_ s = true → less_eq (min_value_ s) (max_value_ s).

(** A reduction tree over groups of values: every leaf accumulates one
    group in an accumulator of its own, every node merges the right
    partial result into the left one. *)
Inductive reduction : Type :=
| Group (s0 : ColumnStats T) (vs : list T)
| Combine (l r : reduction).

Fixpoint run (t : reduction) : ColumnStats T :=
  match t with
  | Group s0 vs => UpdateAll s0 vs
  | Combine l r => Merge (run l) (run r)
  end.

Fixpoint values (t : reduction) : list T :=
  match t with
  | Group _ vs => vs
  | Combine l r => values l ++ values r
  end.

(** Every leaf starts from an empty accumulator. *)
Fixpoint fresh_leaves (t : reduction) : Prop :=
  match t with
  | Group s0 _ => has_values_ s0 = false
  | Combine l r => fresh_leaves l ∧ fresh_leaves r
  end.

End Accumulator.
End Generic.

(** ** The plain-value codec of the generic accumulator *)

(** [int size = buffer.size()]: conversion to a 32-bit signed int. *)
Definition to_int32 (z : Z) : Z := (z + 2 ^ 31) mod 2 ^ 32 - 2 ^ 31.

(** [std::string::resize(n)]: keep the first [n] bytes, pad with zero
    bytes. *)
Definition resize (n : nat) (out : list byte) : list byte :=
  take n out ++ replicate (n - length out)%nat Byte.x00.

(** parquet::Statistics, with the two optional fields this file sets. *)
Record Statistics : Type := mkStatistics {
  min_value : option (list byte);
  max_value : option (list byte)
}.

Definition set_min_value (out : Statistics) (v : list byte) : Statistics :=
  mkStatistics (Some v) (max_value out).
Definition set_max_value (out : Statistics) (v : list byte) : Statistics :=
  mkStatistics (min_value out) (Some v).

(** ParquetPlainEncoder is declared in exec/parquet-common.h; the
    accumulator is embedded over its three entry points.
    - [ByteSize v] is [ParquetPlainEncoder::ByteSize<T>(v)].
    - [Encode v fixed_len_size buffer] is the return value of
      [ParquetPlainEncoder::Encode(v, fixed_len_size, buffer)] and the
      buffer afterwards.
    - [Decode buffer fixed_len_size slot] is the return value of
      [ParquetPlainEncoder::Decode(data, data + size, fixed_len_size, slot)]
      on the bytes [buffer] and the slot afterwards. *)
Class ParquetPlainEncoder (T : Type) : Type := {
  ByteSize : T → Z;
  Encode : T → Z → list byte → Z * list byte;
  Decode : list byte → Z → T → Z * T
}.

Module Codec.
Import Generic.

Section Codec.
Context {T : Type} `{ParquetPlainEncoder T}.

(** ColumnStats<T>::BytesNeeded(const T& v) *)
Definition BytesNeeded (s : ColumnStats T) (v : T) : Z :=
  if plain_encoded_value_size_ s <? 0 then ByteSize v
  else plain_encoded_value_size_ s.

(** ColumnStats<T>::BytesNeeded() *)
Definition BytesNeededTotal (s : ColumnStats T) : Z :=
  BytesNeeded s (min_value_ s) + BytesNeeded s (max_value_ s).

(** ColumnStats<T>::EncodePlainValue: the string [*out] afterwards.
    [bytes_needed] comes from BytesNeeded and is a size, not negative. *)
Definition EncodePlainValue (v : T) (bytes_needed : Z) (out : list byte)
  : outcome (list byte) :=
  let out := resize (Z.to_nat bytes_needed) out in
  let '(bytes_written, out) := Encode v bytes_needed out in
  DCHECK (bytes_needed =? bytes_written);;
  mret out.

(** ColumnStats<T>::DecodePlainValue: the return value and [*slot]
    afterwards. *)
Definition DecodePlainValue (buffer : list byte) (slot : T) : bool * T :=
  let size := to_int32 (Z.of_nat (length buffer)) in
  let '(rc, result) := Decode buffer size slot in
  if rc =? -1 then (false, result) else (true, result).

End Codec.

Section Thrift.
Context {T : Type}.
(** The EncodePlainValue and BytesNeeded(v) that the instantiation of the
    template selects (the generic ones or a specialisation). *)
Variable encode : T → Z → list byte → outcome (list byte).
Variable needed : ColumnStats T → T → Z.

(** ColumnStats<T>::EncodeToThrift *)
Definition EncodeToThrift (s : ColumnStats T) (out : Statistics)
  : outcome Statistics :=
  DCHECK (has_values_ s);;
  min_str ← encode (min_value_ s) (needed s (min_value_ s)) [];
  let out := set_min_value out min_str in
  max_str ← encode (max_value_ s) (needed s (max_value_ s)) [];
  mret (set_max_value out max_str).

End Thrift.
End Codec.

(** ** ColumnStats<bool> *)

Module BoolStats.

(** [a < b] on bool: false is below true. *)
#[global] Instance bool_less : Less bool := λ a b, negb a && b.

(** ColumnStats<bool>::EncodePlainValue: [char c = v; out->assign(1, c)]. *)
Definition EncodePlainValue (v : bool) (bytes_needed : Z) (out : list byte)
  : outcome (list byte) :=
  let c := if v then Byte.x01 else Byte.x00 in
  mret [c].

(** [buffer[0]]; on an empty std::string this is the terminating zero. *)
Definition front (buffer : list byte) : byte :=
  match buffer with
  | c :: _ => c
  | [] => Byte.x00
  end.

(** ColumnStats<bool>::DecodePlainValue: the return value and [*slot]
    afterwards. *)
Definition DecodePlainValue (buffer : list byte) (slot : bool)
  : outcome (bool * bool) :=
  DCHECK (length buffer =? 1)%nat;;
  let result := negb (Byte.eqb (front buffer) Byte.x00) in
  mret (true, result).

(** ColumnStats<bool>::BytesNeeded(const bool& v) *)
Definition BytesNeeded (s : Generic.ColumnStats bool) (v : bool) : Z := 1.

(** ColumnStats<bool>::EncodeToThrift: the template, with the two members
    above. *)
Definition EncodeToThrift := Codec.EncodeToThrift EncodePlainValue BytesNeeded.

End BoolStats.

(** ** ColumnStats<TimestampValue> *)

Module TimestampStats.
Section Timestamp.
(** TimestampValue is declared in runtime/timestamp-value.h; the
    specialisation is embedded over the type, its plain encoder and its
    [IsValidDate] member. *)
Context {TimestampValue : Type} `{ParquetPlainEncoder TimestampValue}.
Variable IsValidDate : TimestampValue → bool.

(** ColumnStats<TimestampValue>::DecodePlainValue *)
Definition DecodePlainValue (buffer : list byte) (slot : TimestampValue)
  : bool * TimestampValue :=
  let size := to_int32 (Z.of_nat (length buffer)) in
  let '(rc, result) := Decode buffer size slot in
  if rc =? -1 then (false, result)
  else (IsValidDate result, result).

End Timestamp.
End TimestampStats.

(** ** ColumnStats<StringValue> *)

Module StringStats.

(** Memory as the string code sees it: blocks of bytes.  The row batches of
    the value source, the buffers of other accumulators, the std::string
    fields of a parquet::Statistics and the two buffers an accumulator owns
    are all blocks. *)
Abbreviation memory := (gmap N (list byte)).

(** StringValue (declared in runtime/string-value.h): the members [ptr] and
    [len] that this file reads and writes, a pointer (block and offset) and
    a length. *)
Record StringValue : Type := mkStringValue {
  ptr : N * nat;
  len : nat
}.

(** The [n] bytes at [p]. *)
Definition load (m : memory) (p : N * nat) (n : nat) : list byte :=
  take n (drop p.2 (m !!! p.1)).

(** The bytes a StringValue refers to. *)
Definition bytes_of (m : memory) (v : StringValue) : list byte :=
  load m (ptr v) (len v).

(** The view lies inside its block. *)
Definition valid (m : memory) (v : StringValue) : Prop :=
  ((ptr v).2 + len v ≤ length (m !!! (ptr v).1))%nat.

(** Modelled from the spec: the comparison of StringValue
    (defined in runtime/string-value.inline.h) compares
    by byte-lexicographic value, not by identity. *)
Fixpoint lex_compare (a b : list byte) : comparison :=
  match a, b with
  | [], [] => Eq
  | [], _ :: _ => Lt
  | _ :: _, [] => Gt
  | x :: a', y :: b' =>
      match N.compare (Byte.to_N x) (Byte.to_N y) with
      | Eq => lex_compare a' b'
      | c => c
      end
  end.

(** Modelled from the spec: [a.Compare(b)], negative, zero or positive. *)
Definition Compare (m : memory) (a b : StringValue) : Z :=
  match lex_compare (bytes_of m a) (bytes_of m b) with
  | Lt => -1
  | Eq => 0
  | Gt => 1
  end.

(** Modelled from the spec: [a < b] and [a > b] on StringValue. *)
Definition string_lt (m : memory) (a b : StringValue) : bool := Compare m a b <? 0.
Definition string_gt (m : memory) (a b : StringValue) : bool := Compare m a b >? 0.

(** [operator<] of StringValue, for the memory the views are read in. *)
Definition string_less (m : memory) : Less StringValue := string_lt m.

(** Modelled from the spec: StringBuffer (declared in
    runtime/string-buffer.h) is a materialization buffer, either empty or
    holding an owned copy.  [buffer_] is the block the buffer owns, [len_]
    the number of bytes of it in use. *)
Record StringBuffer : Type := mkStringBuffer {
  buffer_ : N;
  len_ : nat
}.

(** Modelled from the spec: StringBuffer::Clear marks the buffer empty. *)
Definition Clear (b : StringBuffer) : StringBuffer :=
  mkStringBuffer (buffer_ b) 0.

(** Modelled from the spec: StringBuffer::IsEmpty. *)
Definition IsEmpty (b : StringBuffer) : bool := (len_ b =? 0)%nat.

(** The bytes a buffer holds. *)
Definition contents (m : memory) (b : StringBuffer) : list byte :=
  take (len_ b) (m !!! buffer_ b).

Record ColumnStats : Type := mkStats {
  has_values_ : bool;
  min_value_ : StringValue;
  max_value_ : StringValue;
  plain_encoded_value_size_ : Z;
  min_buffer_ : StringBuffer;
  max_buffer_ : StringBuffer
}.

(** The members ColumnStats<StringValue> shares with every ColumnStats<T>. *)
Definition base (s : ColumnStats) : Generic.ColumnStats StringValue :=
  Generic.mkStats (has_values_ s) (min_value_ s) (max_value_ s)
                  (plain_encoded_value_size_ s).

(** [min_value_ = v; min_buffer_.Clear();] *)
Definition assign_min (s : ColumnStats) (v : StringValue) : ColumnStats :=
  mkStats (has_values_ s) v (max_value_ s) (plain_encoded_value_size_ s)
          (Clear (min_buffer_ s)) (max_buffer_ s).

(** [max_value_ = v; max_buffer_.Clear();] *)
Definition assign_max (s : ColumnStats) (v : StringValue) : ColumnStats :=
  mkStats (has_values_ s) (min_value_ s) v (plain_encoded_value_size_ s)
          (min_buffer_ s) (Clear (max_buffer_ s)).

(** [has_values_ = true;] *)
Definition set_has_values (s : ColumnStats) : ColumnStats :=
  mkStats true (min_value_ s) (max_value_ s) (plain_encoded_value_size_ s)
          (min_buffer_ s) (max_buffer_ s).

(** ColumnStats<StringValue>::Update *)
Definition Update (m : memory) (s : ColumnStats) (v : StringValue)
  : ColumnStats :=
  if negb (has_values_ s) then
    let s := set_has_values s in
    let s := assign_min s v in
    assign_max s v
  else
    let s := if string_lt m v (min_value_ s) then assign_min s v else s in
    if string_gt m v (max_value_ s) then assign_max s v else s.

(** ColumnStats<StringValue>::Merge *)
Definition Merge (m : memory) (s cs : ColumnStats) : ColumnStats :=
  if negb (has_values_ cs) then s
  else if negb (has_values_ s) then
    let s := set_has_values s in
    let s := assign_min s (min_value_ cs) in
    assign_max s (max_value_ cs)
  else
    let s :=
      if string_lt m (min_value_ cs) (min_value_ s)
      then assign_min s (min_value_ cs) else s in
    if string_gt m (max_value_ cs) (max_value_ s)
    then assign_max s (max_value_ cs) else s.

(** Modelled from the spec: CopyToBuffer (defined in
    exec/parquet-column-stats.cc) copies the referenced bytes into the owned
    buffer and retargets the view to point at the owned copy.  The result
    is the memory, the buffer and the value afterwards. *)
Definition CopyToBuffer (m : memory) (buffer : StringBuffer)
    (value : StringValue) : memory * StringBuffer * StringValue :=
  let copy := bytes_of m value in
  (<[buffer_ buffer := copy]> m,
   mkStringBuffer (buffer_ buffer) (len value),
   mkStringValue (buffer_ buffer, 0%nat) (len value)).

(** ColumnStats<StringValue>::MaterializeStringValuesToInternalBuffers *)
Definition MaterializeStringValuesToInternalBuffers (m : memory)
    (s : ColumnStats) : memory * ColumnStats :=
  let '(m, s) :=
    if IsEmpty (min_buffer_ s) then
      let '(m, b, v) := CopyToBuffer m (min_buffer_ s) (min_value_ s) in
      (m, mkStats (has_values_ s) v (max_value_ s)
                  (plain_encoded_value_size_ s) b (max_buffer_ s))
    else (m, s) in
  if IsEmpty (max_buffer_ s) then
    let '(m, b, v) := CopyToBuffer m (max_buffer_ s) (max_value_ s) in
    (m, mkStats (has_values_ s) (min_value_ s) v
                (plain_encoded_value_size_ s) (min_buffer_ s) b)
  else (m, s).

(** ColumnStats<StringValue>::EncodePlainValue: [out->assign(v.ptr, v.len)]. *)
Definition EncodePlainValue (m : memory) (v : StringValue) (bytes_needed : Z)
    (out : list byte) : outcome (list byte) :=
  mret (load m (ptr v) (len v)).

(** ColumnStats<StringValue>::DecodePlainValue.  The std::string [buffer]
    is passed by reference: it is the block [buffer] of [m].  The result is
    the return value and [*slot] afterwards. *)
Definition DecodePlainValue (m : memory) (buffer : N) (slot : StringValue)
  : bool * StringValue :=
  let result := mkStringValue (buffer, 0%nat) (length (m !!! buffer)) in
  (true, result).

(** ColumnStats<StringValue>::EncodeToThrift, over the [ByteSize] of the
    absent plain encoder. *)
Definition EncodeToThrift `{ParquetPlainEncoder StringValue} (m : memory)
    (s : ColumnStats) (out : Statistics) : outcome Statistics :=
  Codec.EncodeToThrift (EncodePlainValue m) Codec.BytesNeeded (base s) out.

(** The states of a string accumulator while the memory its values refer
    to stays as it is. *)
Inductive reachable (m : memory) : ColumnStats → Prop :=
| reach_new s : has_values_ s = false → reachable m s
| reach_update s v : reachable m s → reachable m (Update m s v)
| reach_merge s cs :
    reachable m s → reachable m cs → reachable m (Merge m s cs).

(** A reduction tree over groups of string values, as [Generic.reduction]:
    a leaf accumulates its group in its own accumulator, a node merges the
    right partial result into the left one. *)
Inductive reduction : Type :=
| Group (s0 : ColumnStats) (vs : list StringValue)
| Combine (l r : reduction).

Fixpoint run (m : memory) (t : reduction) : ColumnStats :=
  match t with
  | Group s0 vs => fold_left (Update m) vs s0
  | Combine l r => Merge m (run m l) (run m r)
  end.

(** The same tree over the shared members only. *)
Fixpoint erase (t : reduction) : Generic.reduction (T := StringValue) :=
  match t with
  | Group s0 vs => Generic.Group (base s0) vs
  | Combine l r => Generic.Combine (erase l) (erase r)
  end.

(** The view points into memory the accumulator does not own. *)
Definition borrowed (s : ColumnStats) (v : StringValue) : Prop :=
  (ptr v).1 ≠ buffer_ (min_buffer_ s) ∧ (ptr v).1 ≠ buffer_ (max_buffer_ s).

(** One side of the accumulator: the value is the owned copy in its buffer,
    or the buffer is empty and the value is borrowed from the value
    source. *)
Definition side_ok (s : ColumnStats) (b : StringBuffer) (v : StringValue)
  : Prop :=
  (ptr v = (buffer_ b, 0%nat) ∧ len v = len_ b)
  ∨ (len_ b = 0%nat ∧ borrowed s v).

(** The representation invariant of the string accumulator. *)
Definition wf (s : ColumnStats) : Prop :=
  buffer_ (min_buffer_ s) ≠ buffer_ (max_buffer_ s)
  ∧ side_ok s (min_buffer_ s) (min_value_ s)
  ∧ side_ok s (max_buffer_ s) (max_value_ s).

End StringStats.

(** ** Plain encoders used to exercise the codec wrappers *)

Module PlainModel.

(** [a < b] on the integer types. *)
#[global] Instance Z_less : Less Z := Z.ltb.

(** The two's complement reading of the low [w] bytes of [z]. *)
Definition signed (w : nat) (z : Z) : Z :=
  let half := 2 ^ (Z.of_nat w * 8 - 1) in
  (z + half) mod (2 * half) - half.

(** Modelled from the spec: ParquetPlainEncoder for a numeric type of [w]
    bytes (declared in exec/parquet-common.h) uses a
    fixed little-endian width per type, and Decode fails when the input
    byte count cannot be consumed as an encoding of the type. *)
Definition int_encoder (w : nat) : ParquetPlainEncoder Z := {|
  ByteSize v := Z.of_nat w;
  Encode v fixed_len_size buffer :=
    (Z.of_nat w, le_split w v ++ drop w buffer);
  Decode buffer fixed_len_size slot :=
    if (length buffer <? w)%nat then (-1, slot)
    else (Z.of_nat w, signed w (le_combine (take w buffer)))
|}.

(** [a < b] on a type with one value that compares false against every
    value, as an IEEE NaN does: [None] is that value. *)
Definition unordered_less : Less (option Z) := λ a b,
  match a, b with
  | Some x, Some y => x <? y
  | _, _ => false
  end.

Definition int32_encoder : ParquetPlainEncoder Z := int_encoder 4.
Definition int64_encoder : ParquetPlainEncoder Z := int_encoder 8.

(** Modelled from the spec: a timestamp of fixed width, here the twelve
    bytes of the format's INT96: nanoseconds of the day, then the day
    number. *)
Record Timestamp : Type := mkTimestamp {
  time_of_day : Z;
  date : Z
}.

(** Modelled from the spec: ParquetPlainEncoder for the timestamp, a
    standard fixed-width encode of the two fields, little-endian. *)
Definition timestamp_encoder : ParquetPlainEncoder Timestamp := {|
  ByteSize v := 12;
  Encode v fixed_len_size buffer :=
    (12, le_split 8 (time_of_day v) ++ le_split 4 (date v) ++ drop 12 buffer);
  Decode buffer fixed_len_size slot :=
    if (length buffer <? 12)%nat then (-1, slot)
    else (12, mkTimestamp (signed 8 (le_combine (take 8 buffer)))
                          (signed 4 (le_combine (take 4 (drop 8 buffer)))))
|}.

(** Modelled from the spec: a valid calendar date/time, here a time within
    the day and a day number that is not negative. *)
Definition IsValidDate (t : Timestamp) : bool :=
  (0 <=? time_of_day t) && (time_of_day t <? 86400000000000) && (0 <=? date t).

End PlainModel.

(** A plain encoder for StringValue to instantiate the string EncodeToThrift
    with: only its [ByteSize] is consulted, and the string EncodePlainValue
    ignores the result. *)
Definition string_size : ParquetPlainEncoder StringStats.StringValue := {|
  ByteSize v := Z.of_nat (StringStats.len v);
  Encode v fixed_len_size buffer := (Z.of_nat (StringStats.len v), buffer);
  Decode buffer fixed_len_size slot := (-1, slot)
|}.

(** The plain encoder round-trips [v] at the size [n]: Encode fills a
    buffer of [n] bytes and reports [n], and Decode of those bytes, given
    their number as the fixed length, reports success and yields [v]. *)
Definition plain_roundtrip {T} `{ParquetPlainEncoder T} (v : T) (n : Z)
  : Prop :=
  ∀ buffer, length buffer = Z.to_nat n →
    ∃ bs, Encode v n buffer = (n, bs)
      ∧ ∀ slot, ∃ rc, rc ≠ -1
          ∧ Decode bs (to_int32 (Z.of_nat (length bs))) slot = (rc, v).

(** ** Sample inputs *)

Module Samples.
Import StringStats.

(** A freshly created ColumnStats<int32_t>. *)
Definition ints_new : Generic.ColumnStats Z := Generic.mkStats false 0 0 (-1).

(** A freshly created ColumnStats<bool>. *)
Definition bools_new : Generic.ColumnStats bool :=
  Generic.mkStats false false false (-1).

(** A row batch with three strings in blocks 1 to 3; the accumulator
    below owns the blocks 10 and 11. *)
Definition batch : memory :=
  <[1%N := list_byte_of_string "banana"]>
  (<[2%N := list_byte_of_string "apple"]>
  (<[3%N := list_byte_of_string "cherry"]> ∅)).

Definition banana : StringValue := mkStringValue (1%N, 0%nat) 6.
Definition apple : StringValue := mkStringValue (2%N, 0%nat) 5.
Definition cherry : StringValue := mkStringValue (3%N, 0%nat) 6.
Definition null : StringValue := mkStringValue (0%N, 0%nat) 0.

(** A freshly created ColumnStats<StringValue>. *)
Definition strings_new : ColumnStats :=
  mkStats false null null (-1) (mkStringBuffer 10 0) (mkStringBuffer 11 0).

(** Noon of day 2458000. *)
Definition noon : PlainModel.Timestamp :=
  PlainModel.mkTimestamp 43200000000000 2458000.

(** The row batch after it was released and its blocks were reused. *)
Definition reuse (m : memory) : memory :=
  <[1%N := list_byte_of_string "zzzzzz"]>
  (<[2%N := []]> (<[3%N := list_byte_of_string "aaaaaa"]> m)).

End Samples.

(** ** Notions used to state what the operations keep *)

Module Extent.
Import Generic.

Section Extent.
Context {T : Type} `{Less T}.

(** [x] lies in the range the accumulator reports: it has values, and [x]
    is neither below min_value_ nor above max_value_. *)
Definition covers (s : ColumnStats T) (x : T) : Prop :=
  has_values_ s = true
  ∧ less_eq (min_value_ s) x ∧ less_eq x (max_value_ s).

(** [s'] is [s] after any number of Updates and of Merges of other
    accumulators into it. *)
Inductive evolves (s : ColumnStats T) : ColumnStats T → Prop :=
| evolves_refl : evolves s s
| evolves_update s' v : evolves s s' → evolves s (Update s' v)
| evolves_merge s' cs : evolves s s' → evolves s (Merge s' cs).

End Extent.
End Extent.

(** ParquetPlainEncoder::Encode writes through the pointer it is given:
    when it reports that it wrote the whole buffer it was handed, that
    buffer has kept its size. *)
Definition in_place {T} `{ParquetPlainEncoder T} : Prop :=
  ∀ (v : T) (n : Z) (buffer : list byte),
    length buffer = Z.to_nat n → (Encode v n buffer).1 = n →
    length (Encode v n buffer).2 = length buffer.

Module BoolThrift.

(** ColumnStats<bool>::BytesNeeded(): the template, with the specialised
    BytesNeeded(v). *)
Definition BytesNeededTotal (s : Generic.ColumnStats bool) : Z :=
  BoolStats.BytesNeeded s (Generic.min_value_ s)
  + BoolStats.BytesNeeded s (Generic.max_value_ s).

End BoolThrift.

(** * Properties *)

(** ** The order *)

Section OrderFacts.
Context {T : Type} `{Less T}.

Lemma std_min_cases (a b : T) :
  (less b a = true ∧ std_min a b = b) ∨ (less b a = false ∧ std_min a b = a).
Proof. unfold std_min. destruct (less b a); auto. Qed.

Lemma std_max_cases (a b : T) :
  (less a b = true ∧ std_max a b = b) ∨ (less a b = false ∧ std_max a b = a).
Proof. unfold std_max. destruct (less a b); auto. Qed.

(** [a < b] and [b <= c] give [a < c] in a strict weak order. *)
Lemma less_less_eq `{!LessWeak T} (a b c : T) :
  less a b = true → less_eq b c → less a c = true.
Proof.
  unfold less_eq. intros Hab Hbc.
  destruct (less a c) eqn:Hac; [done|].
  rewrite (less_negtrans a c b) in Hab; done.
Qed.

Lemma less_eq_trans `{!LessWeak T} (a b c : T) :
  less_eq a b → less_eq b c → less_eq a c.
Proof. unfold less_eq. intros Hab Hbc. by apply (less_negtrans c b a). Qed.

(** A strict order that is total is a strict weak order. *)
Lemma total_weak `{!LessStrict T} `{!LessTotal T} : LessWeak T.
Proof.
  split; [done|]. intros a b c Hab Hbc.
  destruct (less a c) eqn:Hac; [|done].
  destruct (less b a) eqn:Hba.
  - by rewrite (less_trans b a c) in Hbc.
  - rewrite (less_total a b Hab Hba) in Hac. congruence.
Qed.

(** Least elements of the same values are incomparable. *)
Lemma is_min_unique (l l' : list T) (a b : T) :
  l ≡ₚ l' → is_min l a → is_min l' b → equiv_less a b.
Proof.
  intros Hp [Ha Hla] [Hb Hlb]. split.
  - apply Hlb. by rewrite <- Hp.
  - apply Hla. by rewrite Hp.
Qed.

Lemma is_max_unique (l l' : list T) (a b : T) :
  l ≡ₚ l' → is_max l a → is_max l' b → equiv_less a b.
Proof.
  intros Hp [Ha Hla] [Hb Hlb]. split.
  - apply Hla. by rewrite Hp.
  - apply Hlb. by rewrite <- Hp.
Qed.

End OrderFacts.

(** ** The generic accumulator *)

Module GenericFacts.
Import Generic.

Section Facts.
Context {T : Type} `{Less T}.

Lemma Update_fresh (s : ColumnStats T) (v : T) :
  has_values_ s = false →
  Update s v = mkStats true v v (plain_encoded_value_size_ s).
Proof. intros Hs. unfold Update. by rewrite Hs. Qed.

Lemma Update_later (s : ColumnStats T) (v : T) :
  has_values_ s = true →
  Update s v = mkStats true (std_min (min_value_ s) v)
                       (std_max (max_value_ s) v)
                       (plain_encoded_value_size_ s).
Proof. intros Hs. unfold Update. by rewrite Hs. Qed.

Lemma Update_has_values (s : ColumnStats T) (v : T) :
  has_values_ (Update s v) = true.
Proof. unfold Update. by destruct (has_values_ s) eqn:Hs. Qed.

Lemma Merge_empty_other (s cs : ColumnStats T) :
  has_values_ cs = false → Merge s cs = s.
Proof. intros Hcs. unfold Merge. by rewrite Hcs. Qed.

Lemma Merge_has_values (s cs : ColumnStats T) :
  has_values_ (Merge s cs) = has_values_ s || has_values_ cs.
Proof.
  unfold Merge.
  destruct (has_values_ cs), (has_values_ s) eqn:Hs; simpl; by rewrite ?Hs.
Qed.

Lemma UpdateAll_snoc (s : ColumnStats T) (l : list T) (v : T) :
  UpdateAll s (l ++ [v]) = Update (UpdateAll s l) v.
Proof. unfold UpdateAll. by rewrite fold_left_app. Qed.

Lemma UpdateAll_has_values (s : ColumnStats T) (l : list T) :
  has_values_ (UpdateAll s l) = has_values_ s || negb (bool_decide (l = [])).
Proof.
  induction l as [|v l IH] using rev_ind.
  - simpl. by rewrite orb_false_r.
  - rewrite UpdateAll_snoc, Update_has_values.
    rewrite bool_decide_eq_false_2; [by rewrite orb_true_r|].
    by destruct l.
Qed.

(** One more value keeps the extrema extremal. *)
Lemma Update_extrema `{!LessStrict T} (s : ColumnStats T) (seen : list T) v :
  has_values_ s = true →
  is_min seen (min_value_ s) → is_max seen (max_value_ s) →
  is_min (seen ++ [v]) (min_value_ (Update s v))
  ∧ is_max (seen ++ [v]) (max_value_ (Update s v)).
Proof.
  intros Hs [Hmin Hlow] [Hmax Hup]. rewrite Update_later by done. simpl.
  split; split.
  - destruct (std_min_cases (min_value_ s) v) as [[_ ->]|[_ ->]]; set_solver.
  - intros x [Hx| ->%list_elem_of_singleton]%elem_of_app; unfold less_eq.
    + destruct (std_min_cases (min_value_ s) v) as [[Hv ->]|[_ ->]];
        [|by apply Hlow].
      destruct (less x v) eqn:Hxv; [|done].
      specialize (Hlow x Hx). unfold less_eq in Hlow.
      by rewrite (less_trans x v (min_value_ s)) in Hlow.
    + destruct (std_min_cases (min_value_ s) v) as [[_ ->]|[Hv ->]];
        [apply less_irrefl|done].
  - destruct (std_max_cases (max_value_ s) v) as [[_ ->]|[_ ->]]; set_solver.
  - intros x [Hx| ->%list_elem_of_singleton]%elem_of_app; unfold less_eq.
    + destruct (std_max_cases (max_value_ s) v) as [[Hv ->]|[_ ->]];
        [|by apply Hup].
      destruct (less v x) eqn:Hxv; [|done].
      specialize (Hup x Hx). unfold less_eq in Hup.
      by rewrite (less_trans (max_value_ s) v x) in Hup.
    + destruct (std_max_cases (max_value_ s) v) as [[_ ->]|[Hv ->]];
        [apply less_irrefl|done].
Qed.

Lemma UpdateAll_extrema_from `{!LessStrict T} (l seen : list T)
    (s : ColumnStats T) :
  has_values_ s = true →
  is_min seen (min_value_ s) → is_max seen (max_value_ s) →
  is_min (seen ++ l) (min_value_ (UpdateAll s l))
  ∧ is_max (seen ++ l) (max_value_ (UpdateAll s l)).
Proof.
  revert seen s. induction l as [|v l IH]; intros seen s Hs Hmin Hmax.
  - by rewrite app_nil_r.
  - destruct (Update_extrema s seen v Hs Hmin Hmax) as [Hmin' Hmax'].
    replace (seen ++ v :: l) with ((seen ++ [v]) ++ l)
      by (by rewrite <- app_assoc).
    apply (IH (seen ++ [v]) (Update s v)); [apply Update_has_values|done..].
Qed.

(** A non-empty sequence fed to an empty accumulator. *)
Lemma UpdateAll_extrema `{!LessStrict T} (s0 : ColumnStats T) v (l : list T) :
  has_values_ s0 = false →
  is_min (v :: l) (min_value_ (UpdateAll s0 (v :: l)))
  ∧ is_max (v :: l) (max_value_ (UpdateAll s0 (v :: l))).
Proof.
  intros Hs0. change (v :: l) with ([v] ++ l) at 1 3.
  change (UpdateAll s0 (v :: l)) with (UpdateAll (Update s0 v) l).
  apply UpdateAll_extrema_from; rewrite Update_fresh by done; simpl;
    [done|split..];
    first [ by apply list_elem_of_singleton
          | intros x ->%list_elem_of_singleton; apply less_irrefl ].
Qed.

(** Update keeps min below max. *)
Lemma Update_ordered `{!LessStrict T} (s : ColumnStats T) (v : T) :
  ordered s → ordered (Update s v).
Proof.
  unfold ordered, less_eq. intros Hinv _. destruct (has_values_ s) eqn:Hs.
  - rewrite Update_later by done. simpl. specialize (Hinv eq_refl).
    destruct (std_min_cases (min_value_ s) v) as [[Hlo ->]|[Hlo ->]],
             (std_max_cases (max_value_ s) v) as [[Hhi ->]|[Hhi ->]];
      auto using less_irrefl.
  - rewrite Update_fresh by done. simpl. apply less_irrefl.
Qed.

(** Merge keeps min below max. *)
Lemma Merge_ordered `{!LessStrict T} (s cs : ColumnStats T) :
  ordered s → ordered cs → ordered (Merge s cs).
Proof.
  unfold ordered, less_eq, Merge. intros Hs Hcs.
  destruct (has_values_ cs) eqn:Ecs; simpl; [|done].
  destruct (has_values_ s) eqn:Es; simpl; [|by auto].
  intros _. specialize (Hs eq_refl). specialize (Hcs eq_refl).
  destruct (std_min_cases (min_value_ s) (min_value_ cs)) as [[Hlo ->]|[Hlo ->]],
           (std_max_cases (max_value_ s) (max_value_ cs)) as [[Hhi ->]|[Hhi ->]];
    try done.
  - destruct (less (max_value_ s) (min_value_ cs)) eqn:Hx; [|done].
    by rewrite (less_trans (max_value_ s) (min_value_ cs) (min_value_ s)) in Hs.
  - destruct (less (max_value_ cs) (min_value_ s)) eqn:Hx; [|done].
    by rewrite (less_trans (max_value_ s) (max_value_ cs) (min_value_ s)) in Hs.
Qed.

Lemma reachable_ordered `{!LessStrict T} (s : ColumnStats T) :
  reachable s → ordered s.
Proof.
  induction 1 as [s Hs|s v _ IH|s cs _ IHs _ IHcs].
  - intros Hv. congruence.
  - by apply Update_ordered.
  - by apply Merge_ordered.
Qed.

End Facts.
End GenericFacts.

(** ** Merging partial results *)

Module MergeFacts.
Import Generic GenericFacts.

Section Facts.
Context {T : Type} `{Less T} `{!LessWeak T}.

(** The smaller of two least elements is least for both groups. *)
Lemma std_min_is_min (l1 l2 : list T) (a b : T) :
  is_min l1 a → is_min l2 b → is_min (l1 ++ l2) (std_min a b).
Proof.
  intros [Ha Hl1] [Hb Hl2].
  destruct (std_min_cases a b) as [[Hba ->]|[Hba ->]]; split.
  - set_unfold; auto.
  - intros x [Hx|Hx]%elem_of_app; [|by apply Hl2].
    unfold less_eq. destruct (less x b) eqn:Hxb; [|done].
    specialize (Hl1 x Hx). unfold less_eq in Hl1.
    by rewrite (less_trans x b a) in Hl1.
  - set_unfold; auto.
  - intros x [Hx|Hx]%elem_of_app; [by apply Hl1|].
    apply (less_eq_trans a b x); [done|by apply Hl2].
Qed.

Lemma std_max_is_max (l1 l2 : list T) (a b : T) :
  is_max l1 a → is_max l2 b → is_max (l1 ++ l2) (std_max a b).
Proof.
  intros [Ha Hl1] [Hb Hl2].
  destruct (std_max_cases a b) as [[Hab ->]|[Hab ->]]; split.
  - set_unfold; auto.
  - intros x [Hx|Hx]%elem_of_app; [|by apply Hl2].
    unfold less_eq. destruct (less b x) eqn:Hbx; [|done].
    specialize (Hl1 x Hx). unfold less_eq in Hl1.
    by rewrite (less_trans a b x) in Hl1.
  - set_unfold; auto.
  - intros x [Hx|Hx]%elem_of_app; [by apply Hl1|].
    apply (less_eq_trans x b a); [by apply Hl2|done].
Qed.

Lemma run_has_values (t : reduction) :
  fresh_leaves t →
  has_values_ (run t) = negb (bool_decide (values t = [])).
Proof.
  induction t as [s0 vs|l IHl r IHr]; simpl.
  - intros Hs0. by rewrite UpdateAll_has_values, Hs0.
  - intros [Hl Hr]. rewrite Merge_has_values, IHl, IHr by done.
    destruct (values l), (values r); done.
Qed.

(** A reduction tree ends with extrema of all the values in its groups. *)
Lemma run_extrema (t : reduction) :
  fresh_leaves t → values t ≠ [] →
  is_min (values t) (min_value_ (run t))
  ∧ is_max (values t) (max_value_ (run t)).
Proof.
  induction t as [s0 vs|l IHl r IHr]; simpl.
  - intros Hs0 Hvs. destruct vs as [|v vs]; [done|].
    by apply UpdateAll_extrema.
  - intros [Hl Hr] Hne.
    pose proof (run_has_values l Hl) as Hvl.
    pose proof (run_has_values r Hr) as Hvr.
    unfold Merge. rewrite Hvl, Hvr.
    destruct (values r) as [|vr lr] eqn:Er; simpl.
    { rewrite app_nil_r in *. by apply IHl. }
    destruct (values l) as [|vl ll] eqn:El; simpl.
    { by apply IHr. }
    destruct IHl as [? ?]; [done..|]. destruct IHr as [? ?]; [done..|].
    split; [by apply (std_min_is_min (vl :: ll))
           |by apply (std_max_is_max (vl :: ll))].
Qed.

(** Merging a non-empty accumulator whose min is not above its max gives
    the extrema that two Updates with its min and its max give. *)
Lemma Merge_as_two_updates (s cs : ColumnStats T) :
  has_values_ cs = true → ordered cs →
  let s' := Update (Update s (min_value_ cs)) (max_value_ cs) in
  has_values_ (Merge s cs) = has_values_ s'
  ∧ plain_encoded_value_size_ (Merge s cs) = plain_encoded_value_size_ s'
  ∧ min_value_ (Merge s cs) = min_value_ s'
  ∧ equiv_less (max_value_ (Merge s cs)) (max_value_ s')
  ∧ (LessTotal T → Merge s cs = s').
Proof.
  intros Hcs Hord. specialize (Hord Hcs). unfold less_eq in Hord.
  assert (less (min_value_ cs) (min_value_ cs) = false) as Hirr
    by apply less_irrefl.
  assert (less (max_value_ cs) (max_value_ cs) = false) as Hirr'
    by apply less_irrefl.
  unfold Merge. rewrite Hcs. simpl.
  destruct (has_values_ s) eqn:Hs; simpl.
  - rewrite (Update_later (Update s _)) by apply Update_has_values.
    rewrite (Update_later s) by done. simpl.
    set (a := min_value_ s). set (b := max_value_ s).
    set (c := min_value_ cs) in *. set (d := max_value_ cs) in *.
    assert (std_min (std_min a c) d = std_min a c) as Emin.
    { destruct (std_min_cases (std_min a c) d) as [[Hlt E]|[_ E]]; [|done].
      exfalso. destruct (std_min_cases a c) as [[Hca E']|[Hca E']];
        rewrite E' in Hlt.
      - congruence.
      - rewrite (less_negtrans d c a) in Hlt; done. }
    assert (equiv_less (std_max b d) (std_max (std_max b c) d)
            ∧ (LessTotal T → std_max b d = std_max (std_max b c) d))
      as [Emax Etot].
    { destruct (std_max_cases b c) as [[Hbc ->]|[Hbc ->]].
      - assert (less b d = true) as Hbd by by apply (less_less_eq b c d).
        unfold std_max. rewrite Hbd.
        destruct (less c d) eqn:Hcd.
        + split; [split; apply less_irrefl|done].
        + split; [done|]. intros Htot. by apply Htot.
      - split; [split; apply less_irrefl|done]. }
    rewrite Emin. repeat split; try apply Emax.
    intros Htot. by rewrite (Etot Htot).
  - rewrite (Update_later (Update s _)) by apply Update_has_values.
    rewrite (Update_fresh s) by done. simpl.
    assert (std_min (min_value_ cs) (max_value_ cs) = min_value_ cs) as ->.
    { unfold std_min. by rewrite Hord. }
    unfold std_max. destruct (less (min_value_ cs) (max_value_ cs)) eqn:Hlt.
    + repeat split; apply less_irrefl.
    + repeat split; try done. intros Htot.
      by rewrite (Htot (min_value_ cs) (max_value_ cs)).
Qed.

End Facts.
End MergeFacts.

(** ** The codec wrappers *)

Module CodecFacts.
Import Generic.

Lemma length_resize (n : nat) (out : list byte) : length (resize n out) = n.
Proof.
  unfold resize. rewrite length_app, length_take, length_replicate. lia.
Qed.

Lemma DCHECK_true (A : Type) (k : outcome A) : (DCHECK true;; k) = k.
Proof. reflexivity. Qed.

Section Facts.
Context {T : Type} `{ParquetPlainEncoder T}.

(** Encoding with a size at which the plain encoder round-trips passes the
    DCHECK, and decoding the result gives the value back. *)
Lemma generic_roundtrip (v : T) (n : Z) (out : list byte) (slot : T) :
  plain_roundtrip v n →
  ∃ bs, Codec.EncodePlainValue v n out = Done bs
      ∧ Codec.DecodePlainValue bs slot = (true, v).
Proof.
  intros Hrt.
  destruct (Hrt (resize (Z.to_nat n) out) (length_resize _ _))
    as (bs & Henc & Hdec).
  exists bs. unfold Codec.EncodePlainValue, Codec.DecodePlainValue.
  rewrite Henc, Z.eqb_refl, DCHECK_true. split; [done|].
  destruct (Hdec slot) as (rc & Hrc & ->).
  by apply Z.eqb_neq in Hrc as ->.
Qed.

(** The timestamp decoder accepts what the generic one accepts, as long as
    the date is valid. *)
Lemma timestamp_decode_spec (IsValidDate : T → bool) (buffer : list byte)
    (slot : T) :
  TimestampStats.DecodePlainValue IsValidDate buffer slot =
    let '(ok, result) := Codec.DecodePlainValue buffer slot in
    (ok && IsValidDate result, result).
Proof.
  unfold TimestampStats.DecodePlainValue, Codec.DecodePlainValue.
  destruct (Decode _ _ _) as [rc result]. by destruct (rc =? -1).
Qed.

End Facts.

(** Every DCHECK-free run of EncodeToThrift started with values. *)
Lemma EncodeToThrift_empty {T : Type}
    (encode : T → Z → list byte → outcome (list byte))
    (needed : ColumnStats T → T → Z) (s : ColumnStats T) (out : Statistics) :
  has_values_ s = false →
  Codec.EncodeToThrift encode needed s out = DcheckFailed.
Proof. intros Hs. unfold Codec.EncodeToThrift. by rewrite Hs. Qed.

Lemma EncodeToThrift_values {T : Type}
    (encode : T → Z → list byte → outcome (list byte))
    (needed : ColumnStats T → T → Z) (s : ColumnStats T) (out : Statistics)
    (lo hi : list byte) :
  has_values_ s = true →
  encode (min_value_ s) (needed s (min_value_ s)) [] = Done lo →
  encode (max_value_ s) (needed s (max_value_ s)) [] = Done hi →
  Codec.EncodeToThrift encode needed s out =
    Done (mkStatistics (Some lo) (Some hi)).
Proof.
  intros Hs Hlo Hhi. unfold Codec.EncodeToThrift.
  by rewrite Hs, DCHECK_true, Hlo, Hhi.
Qed.

End CodecFacts.

Module BoolFacts.
Import BoolStats.

#[global] Instance bool_strict : LessStrict bool.
Proof. split; [by intros []|by intros [] [] []]. Qed.

#[global] Instance bool_total : LessTotal bool.
Proof. by intros [] []. Qed.

#[global] Instance bool_weak : LessWeak bool := total_weak.

Lemma byte_eqb_spec (a b : byte) : Byte.eqb a b = bool_decide (a = b).
Proof.
  destruct (Byte.eqb a b) eqn:E.
  - apply Byte.byte_dec_bl in E. by rewrite bool_decide_eq_true_2.
  - rewrite bool_decide_eq_false_2; [done|].
    intros ->. by rewrite Byte.byte_dec_lb in E.
Qed.

Lemma Decode_one (c : byte) (slot : bool) :
  DecodePlainValue [c] slot = Done (true, bool_decide (c ≠ Byte.x00)).
Proof.
  unfold DecodePlainValue. simpl. rewrite byte_eqb_spec.
  do 2 f_equal. by destruct (decide (c = Byte.x00)) as [->|Hne];
    [|rewrite bool_decide_eq_false_2, bool_decide_eq_true_2].
Qed.

Lemma Decode_other (buffer : list byte) (slot : bool) :
  length buffer ≠ 1%nat → DecodePlainValue buffer slot = DcheckFailed.
Proof.
  intros Hlen. unfold DecodePlainValue.
  by apply Nat.eqb_neq in Hlen as ->.
Qed.

End BoolFacts.

Module PlainModelFacts.
Import PlainModel.

#[global] Instance Z_strict : LessStrict Z.
Proof.
  split; unfold less, Z_less.
  - intros a. apply Z.ltb_irrefl.
  - intros a b c ?%Z.ltb_lt ?%Z.ltb_lt. apply Z.ltb_lt. lia.
Qed.

#[global] Instance Z_total : LessTotal Z.
Proof. intros a b ?%Z.ltb_ge ?%Z.ltb_ge. lia. Qed.

#[global] Instance Z_weak : LessWeak Z := total_weak.

(** In range, the two's complement reading undoes the reduction modulo
    the width. *)
Lemma signed_mod (w : nat) (v : Z) :
  (0 < w)%nat →
  - 2 ^ (Z.of_nat w * 8 - 1) ≤ v < 2 ^ (Z.of_nat w * 8 - 1) →
  signed w (v mod 2 ^ (Z.of_nat w * 8)) = v.
Proof.
  intros Hw Hv. unfold signed.
  set (half := 2 ^ (Z.of_nat w * 8 - 1)) in *.
  assert (2 ^ (Z.of_nat w * 8) = 2 * half) as ->.
  { unfold half. rewrite <- Z.pow_succ_r by lia. f_equal. lia. }
  assert (0 < half) by (apply Z.pow_pos_nonneg; lia).
  rewrite Z.add_mod_idemp_l by lia.
  rewrite Z.mod_small by lia. lia.
Qed.

Lemma int_roundtrip (w : nat) (v : Z) :
  (0 < w)%nat →
  - 2 ^ (Z.of_nat w * 8 - 1) ≤ v < 2 ^ (Z.of_nat w * 8 - 1) →
  plain_roundtrip (H := int_encoder w) v (Z.of_nat w).
Proof.
  intros Hw Hv buffer Hlen. rewrite Nat2Z.id in Hlen.
  exists (le_split w v). simpl. split.
  - by rewrite drop_ge, app_nil_r by lia.
  - intros slot. exists (Z.of_nat w). split; [lia|].
    rewrite length_le_split.
    assert ((w <? w)%nat = false) as -> by (apply Nat.ltb_ge; lia).
    rewrite take_ge by (rewrite length_le_split; lia).
    by rewrite le_combine_split, signed_mod.
Qed.

Lemma timestamp_roundtrip (t : Timestamp) :
  - 2 ^ 63 ≤ time_of_day t < 2 ^ 63 → - 2 ^ 31 ≤ date t < 2 ^ 31 →
  plain_roundtrip (H := timestamp_encoder) t 12.
Proof.
  intros Htime Hdate buffer Hlen. change (Z.to_nat 12) with 12%nat in Hlen.
  exists (le_split 8 (time_of_day t) ++ le_split 4 (date t)).
  cbn [Encode Decode timestamp_encoder]. split.
  - by rewrite drop_ge, app_nil_r by lia.
  - intros slot. exists 12. split; [lia|].
    rewrite length_app, !length_le_split.
    change (8 + 4 <? 12)%nat with false. cbn iota.
    rewrite take_app_length' by (by rewrite length_le_split).
    rewrite drop_app_length' by (by rewrite length_le_split).
    rewrite take_ge by (rewrite length_le_split; lia).
    rewrite !le_combine_split.
    rewrite (signed_mod 8), (signed_mod 4) by (simpl; lia).
    by destruct t.
Qed.

End PlainModelFacts.

(** ** The string accumulator *)

Module StringOrder.
Import StringStats.

Lemma to_N_inj (x y : byte) : Byte.to_N x = Byte.to_N y → x = y.
Proof.
  intros E. pose proof (Byte.of_to_N x) as Hx.
  rewrite E, Byte.of_to_N in Hx. congruence.
Qed.

Lemma lex_compare_eq (a b : list byte) : lex_compare a b = Eq ↔ a = b.
Proof.
  revert b. induction a as [|x a IH]; intros [|y b]; simpl; try done.
  destruct (N.compare_spec (Byte.to_N x) (Byte.to_N y)) as [E|E|E].
  - apply to_N_inj in E as ->. rewrite IH. split; congruence.
  - split; [done|]. intros [= -> _]. lia.
  - split; [done|]. intros [= -> _]. lia.
Qed.

Lemma lex_compare_antisym (a b : list byte) :
  lex_compare b a = CompOpp (lex_compare a b).
Proof.
  revert b. induction a as [|x a IH]; intros [|y b]; simpl; try done.
  rewrite (N.compare_antisym (Byte.to_N x)).
  destruct (Byte.to_N x ?= Byte.to_N y)%N; simpl; auto.
Qed.

Lemma lex_compare_trans (a b c : list byte) :
  lex_compare a b = Lt → lex_compare b c = Lt → lex_compare a c = Lt.
Proof.
  revert b c. induction a as [|x a IH]; intros [|y b] [|z c]; simpl;
    try done.
  destruct (N.compare_spec (Byte.to_N x) (Byte.to_N y)) as [E|E|E];
    destruct (N.compare_spec (Byte.to_N y) (Byte.to_N z)) as [E'|E'|E'];
    try done; intros Hab Hbc.
  - rewrite E, E', N.compare_refl. by apply (IH b).
  - rewrite E. by apply N.compare_lt_iff in E' as ->.
  - rewrite <- E'. by apply N.compare_lt_iff in E as ->.
  - assert (Byte.to_N x < Byte.to_N z)%N as Hlt by lia.
    by apply N.compare_lt_iff in Hlt as ->.
Qed.

Lemma string_lt_spec (m : memory) (a b : StringValue) :
  string_lt m a b = true ↔ lex_compare (bytes_of m a) (bytes_of m b) = Lt.
Proof. unfold string_lt, Compare. by destruct (lex_compare _ _). Qed.

(** [a > b] is [b < a]. *)
Lemma string_gt_lt (m : memory) (a b : StringValue) : string_gt m a b = string_lt m b a.
Proof.
  unfold string_gt, string_lt, Compare.
  rewrite (lex_compare_antisym (bytes_of m a) (bytes_of m b)).
  by destruct (lex_compare _ _).
Qed.

Section Order.
Variable m : memory.
#[local] Existing Instance string_less.

#[export] Instance string_strict : LessStrict (H := string_less m) StringValue.
Proof.
  split; unfold less, string_less.
  - intros a. unfold string_lt, Compare.
    by rewrite (proj2 (lex_compare_eq _ _) eq_refl).
  - intros a b c Hab%string_lt_spec Hbc%string_lt_spec. apply string_lt_spec.
    by apply (lex_compare_trans _ (bytes_of m b)).
Qed.

#[export] Instance string_weak : LessWeak (H := string_less m) StringValue.
Proof.
  split; [apply _|]. unfold less, string_less. intros a b c Hab Hbc.
  destruct (string_lt m a c) eqn:Hac; [|done]. exfalso.
  apply string_lt_spec in Hac.
  apply not_true_iff_false in Hab, Hbc. rewrite string_lt_spec in Hab, Hbc.
  destruct (lex_compare (bytes_of m a) (bytes_of m b)) eqn:E.
  - apply lex_compare_eq in E. by rewrite E in Hac.
  - done.
  - apply Hbc, (lex_compare_trans _ (bytes_of m a)); [|done].
    by rewrite lex_compare_antisym, E.
Qed.

(** Incomparable views hold the same bytes. *)
Lemma equiv_less_bytes (a b : StringValue) :
  equiv_less (H := string_less m) a b ↔ bytes_of m a = bytes_of m b.
Proof.
  unfold equiv_less, less, string_less. split.
  - intros [Hab Hba]. apply lex_compare_eq.
    destruct (lex_compare (bytes_of m a) (bytes_of m b)) eqn:E; [done|..].
    + apply string_lt_spec in E. congruence.
    + assert (string_lt m b a = true); [|congruence].
      apply string_lt_spec. by rewrite lex_compare_antisym, E.
  - intros E. unfold string_lt, Compare. rewrite E.
    by rewrite (proj2 (lex_compare_eq _ _) eq_refl).
Qed.

(** The string Update and Merge act on the shared members as the generic
    ones do for the byte order. *)
Lemma base_Update (s : ColumnStats) (v : StringValue) :
  base (Update m s v) = Generic.Update (H := string_less m) (base s) v.
Proof.
  unfold Update, Generic.Update, base, std_min, std_max, less, string_less.
  simpl. destruct (has_values_ s) eqn:Hs; simpl; [|done].
  rewrite <- (string_gt_lt m v (max_value_ s)).
  destruct (string_lt m v (min_value_ s)); simpl;
    destruct (string_gt m v (max_value_ s)); simpl; by rewrite ?Hs.
Qed.

Lemma base_Merge (s cs : ColumnStats) :
  base (Merge m s cs) =
    Generic.Merge (H := string_less m) (base s) (base cs).
Proof.
  unfold Merge, Generic.Merge, base, std_min, std_max, less, string_less.
  simpl. destruct (has_values_ cs) eqn:Hcs; simpl; [|done].
  destruct (has_values_ s) eqn:Hs; simpl; [|done].
  rewrite <- (string_gt_lt m (max_value_ cs) (max_value_ s)).
  destruct (string_lt m (min_value_ cs) (min_value_ s)); simpl;
    destruct (string_gt m (max_value_ cs) (max_value_ s)); simpl;
    by rewrite ?Hs.
Qed.

Lemma base_UpdateAll (l : list StringValue) (s : ColumnStats) :
  base (fold_left (Update m) l s) =
    Generic.UpdateAll (H := string_less m) (base s) l.
Proof.
  revert s. induction l as [|v l IH]; intros s; [done|]. simpl.
  by rewrite IH, base_Update.
Qed.

Lemma reachable_base (s : ColumnStats) :
  reachable m s → Generic.reachable (H := string_less m) (base s).
Proof.
  induction 1 as [s Hs|s v _ IH|s cs _ IHs _ IHcs].
  - by apply Generic.reach_new.
  - rewrite base_Update. by apply Generic.reach_update.
  - rewrite base_Merge. by apply Generic.reach_merge.
Qed.

End Order.
End StringOrder.

Module StringFacts.
Import StringStats StringOrder.

(** *** Which members Update and Merge touch *)

Lemma string_Update_fresh (m : memory) (s : ColumnStats) (v : StringValue) :
  has_values_ s = false →
  Update m s v = mkStats true v v (plain_encoded_value_size_ s)
                         (Clear (min_buffer_ s)) (Clear (max_buffer_ s)).
Proof. intros Hs. unfold Update. by rewrite Hs. Qed.

Lemma Update_min_assigned (m : memory) (s : ColumnStats) (v : StringValue) :
  has_values_ s = false ∨ string_lt m v (min_value_ s) = true →
  min_value_ (Update m s v) = v
  ∧ min_buffer_ (Update m s v) = Clear (min_buffer_ s).
Proof.
  unfold Update. destruct (has_values_ s); simpl; [|done].
  intros [?| ->]; [done|]. simpl. by destruct (string_gt m v _).
Qed.

Lemma Update_min_kept (m : memory) (s : ColumnStats) (v : StringValue) :
  has_values_ s = true → string_lt m v (min_value_ s) = false →
  min_value_ (Update m s v) = min_value_ s
  ∧ min_buffer_ (Update m s v) = min_buffer_ s.
Proof.
  unfold Update. intros -> ->. simpl. by destruct (string_gt m v _).
Qed.

Lemma Update_max_assigned (m : memory) (s : ColumnStats) (v : StringValue) :
  has_values_ s = false ∨ string_gt m v (max_value_ s) = true →
  max_value_ (Update m s v) = v
  ∧ max_buffer_ (Update m s v) = Clear (max_buffer_ s).
Proof.
  unfold Update. destruct (has_values_ s); simpl; [|done].
  intros [?|Hgt]; [done|].
  destruct (string_lt m v (min_value_ s)); simpl; by rewrite Hgt.
Qed.

Lemma Update_max_kept (m : memory) (s : ColumnStats) (v : StringValue) :
  has_values_ s = true → string_gt m v (max_value_ s) = false →
  max_value_ (Update m s v) = max_value_ s
  ∧ max_buffer_ (Update m s v) = max_buffer_ s.
Proof.
  unfold Update. intros -> Hgt. simpl.
  destruct (string_lt m v (min_value_ s)); simpl; by rewrite Hgt.
Qed.

Lemma string_Merge_empty_other (m : memory) (s cs : ColumnStats) :
  has_values_ cs = false → Merge m s cs = s.
Proof. intros Hcs. unfold Merge. by rewrite Hcs. Qed.

(** Merging an accumulator with values touches the members that an Update
    with its min touches on the min side and an Update with its max
    touches on the max side. *)
Lemma Merge_min_side (m : memory) (s cs : ColumnStats) :
  has_values_ cs = true →
  min_value_ (Merge m s cs) = min_value_ (Update m s (min_value_ cs))
  ∧ min_buffer_ (Merge m s cs) = min_buffer_ (Update m s (min_value_ cs)).
Proof.
  unfold Merge, Update. intros ->. simpl.
  destruct (has_values_ s); simpl; [|done].
  destruct (string_lt m _ _); simpl;
    by destruct (string_gt m _ _), (string_gt m _ _).
Qed.

Lemma Merge_max_side (m : memory) (s cs : ColumnStats) :
  has_values_ cs = true →
  max_value_ (Merge m s cs) = max_value_ (Update m s (max_value_ cs))
  ∧ max_buffer_ (Merge m s cs) = max_buffer_ (Update m s (max_value_ cs)).
Proof.
  unfold Merge, Update. intros ->. simpl.
  destruct (has_values_ s); simpl; [|done].
  destruct (string_lt m (min_value_ cs) _), (string_lt m (max_value_ cs) _);
    simpl; by destruct (string_gt m _ _).
Qed.

(** *** The representation invariant *)

Lemma wf_Update (m : memory) (s : ColumnStats) (v : StringValue) :
  wf s → borrowed s v → wf (Update m s v).
Proof.
  destruct s as [hv lo hi sz [mb ml] [xb xl]].
  unfold wf, side_ok, borrowed, Update. simpl.
  intros (Hne & Hlo & Hhi) [Hv1 Hv2].
  destruct hv; simpl.
  - destruct (string_lt m v lo); simpl;
      destruct (string_gt m v hi); simpl; intuition auto.
  - intuition auto.
Qed.

Lemma wf_Merge (m : memory) (s cs : ColumnStats) :
  wf s → borrowed s (min_value_ cs) → borrowed s (max_value_ cs) →
  wf (Merge m s cs).
Proof.
  destruct s as [hv lo hi sz [mb ml] [xb xl]].
  unfold wf, side_ok, borrowed, Merge. simpl.
  intros (Hne & Hlo & Hhi) [Hv1 Hv2] [Hv3 Hv4].
  destruct (has_values_ cs); simpl; [|done].
  destruct hv; simpl.
  - destruct (string_lt m _ lo); simpl;
      destruct (string_gt m _ hi); simpl; intuition auto.
  - intuition auto.
Qed.

End StringFacts.

Module MaterializeFacts.
Import StringStats.

Lemma bytes_of_owned (m : memory) (b : N) (n : nat) :
  bytes_of m (mkStringValue (b, 0%nat) n) = take n (m !!! b).
Proof. reflexivity. Qed.

Lemma bytes_of_insert_ne (m : memory) (b : N) (bs : list byte)
    (v : StringValue) :
  (ptr v).1 ≠ b → bytes_of (<[b := bs]> m) v = bytes_of m v.
Proof.
  intros Hne. unfold bytes_of, load. by rewrite lookup_total_insert_ne.
Qed.

Lemma length_bytes_of (m : memory) (v : StringValue) :
  valid m v → length (bytes_of m v) = len v.
Proof.
  unfold valid, bytes_of, load. intros Hv.
  rewrite length_take, length_drop. lia.
Qed.

(** In a well-formed accumulator a value never points into the buffer of
    the other side. *)
Lemma side_ok_other (s : ColumnStats) :
  wf s →
  (ptr (min_value_ s)).1 ≠ buffer_ (max_buffer_ s)
  ∧ (ptr (max_value_ s)).1 ≠ buffer_ (min_buffer_ s).
Proof.
  unfold wf, side_ok, borrowed.
  intros (Hne & [[-> _]|(_ & _ & ?)] & [[-> _]|(_ & ? & _)]); simpl; auto.
Qed.

(** What materializing a well-formed accumulator comes to: each side whose
    buffer is empty receives the bytes its value referred to, and both
    values end up as views of the owned buffers. *)
Lemma Materialize_wf (m : memory) (s : ColumnStats) :
  wf s →
  let mb := buffer_ (min_buffer_ s) in
  let xb := buffer_ (max_buffer_ s) in
  let m1 := if IsEmpty (min_buffer_ s)
            then <[mb := bytes_of m (min_value_ s)]> m else m in
  let m2 := if IsEmpty (max_buffer_ s)
            then <[xb := bytes_of m (max_value_ s)]> m1 else m1 in
  MaterializeStringValuesToInternalBuffers m s =
    (m2, mkStats (has_values_ s)
                 (mkStringValue (mb, 0%nat) (len (min_value_ s)))
                 (mkStringValue (xb, 0%nat) (len (max_value_ s)))
                 (plain_encoded_value_size_ s)
                 (mkStringBuffer mb (len (min_value_ s)))
                 (mkStringBuffer xb (len (max_value_ s)))).
Proof.
  intros Hwf. destruct (side_ok_other s Hwf) as [Hlo_x Hhi_m].
  destruct Hwf as (Hne & Hlo & Hhi). revert Hne Hlo Hhi Hlo_x Hhi_m.
  destruct s as [hv [lp ll] [hp hl] sz [mb ml] [xb xl]].
  unfold side_ok, MaterializeStringValuesToInternalBuffers, CopyToBuffer,
    IsEmpty. simpl. intros Hne Hlo Hhi Hlo_x Hhi_m.
  destruct (Nat.eqb_spec ml 0) as [->|Hml]; simpl;
    destruct (Nat.eqb_spec xl 0) as [->|Hxl]; simpl.
  - by rewrite bytes_of_insert_ne.
  - destruct Hhi as [[-> ->]|[? _]]; done.
  - destruct Hlo as [[-> ->]|[? _]]; done.
  - destruct Hlo as [[-> ->]|[? _]]; [|done].
    destruct Hhi as [[-> ->]|[? _]]; done.
Qed.

End MaterializeFacts.

Module StringReductionFacts.
Import StringStats StringOrder.

Lemma base_run (m : memory) (t : reduction) :
  base (run m t) = Generic.run (H := string_less m) (erase t).
Proof.
  induction t as [s0 vs|l IHl r IHr]; simpl.
  - apply base_UpdateAll.
  - by rewrite base_Merge, IHl, IHr.
Qed.

End StringReductionFacts.

(** * The claims of the specification *)

(** C1.  For a type whose [<] is a strict order, feeding a non-empty
    sequence of values to a freshly created accumulator leaves it with
    has_values true, a min_value that is one of the values and below none
    of them, and a max_value that is one of the values and above none of
    them; feeding the same values in any other order gives extrema that
    are incomparable with these, and equal to them when the order is
    total.  The first Update sets min = max = v and has_values = true, and
    each later Update takes std::min and std::max with the new value.
    The string specialisation does the same for the byte-lexicographic
    order of the referenced bytes. *)
Theorem C1_update_tracks_min_max :
  (∀ (T : Type) (L : Less T) (_ : LessStrict T)
     (s0 : Generic.ColumnStats T) (v : T) (l : list T),
     Generic.has_values_ s0 = false →
     let s := Generic.UpdateAll s0 (v :: l) in
     Generic.Update s0 v =
       Generic.mkStats true v v (Generic.plain_encoded_value_size_ s0)
     ∧ (∀ s1 w, Generic.has_values_ s1 = true →
          Generic.Update s1 w =
            Generic.mkStats true (std_min (Generic.min_value_ s1) w)
              (std_max (Generic.max_value_ s1) w)
              (Generic.plain_encoded_value_size_ s1))
     ∧ Generic.has_values_ s = true
     ∧ is_min (v :: l) (Generic.min_value_ s)
     ∧ is_max (v :: l) (Generic.max_value_ s)
     ∧ ∀ l', v :: l ≡ₚ l' →
         let s' := Generic.UpdateAll s0 l' in
         equiv_less (Generic.min_value_ s) (Generic.min_value_ s')
         ∧ equiv_less (Generic.max_value_ s) (Generic.max_value_ s')
         ∧ (LessTotal T →
            Generic.min_value_ s' = Generic.min_value_ s
            ∧ Generic.max_value_ s' = Generic.max_value_ s))
  ∧ (∀ (m : StringStats.memory) (s0 : StringStats.ColumnStats)
       (v : StringStats.StringValue) (l : list StringStats.StringValue),
     StringStats.has_values_ s0 = false →
     let s := fold_left (StringStats.Update m) (v :: l) s0 in
     StringStats.min_value_ (StringStats.Update m s0 v) = v
     ∧ StringStats.max_value_ (StringStats.Update m s0 v) = v
     ∧ StringStats.has_values_ (StringStats.Update m s0 v) = true
     ∧ StringStats.has_values_ s = true
     ∧ StringStats.min_value_ s ∈ v :: l
     ∧ (∀ x, x ∈ v :: l →
          StringStats.string_lt m x (StringStats.min_value_ s) = false)
     ∧ StringStats.max_value_ s ∈ v :: l
     ∧ (∀ x, x ∈ v :: l →
          StringStats.string_lt m (StringStats.max_value_ s) x = false)
     ∧ ∀ l', v :: l ≡ₚ l' →
         let s' := fold_left (StringStats.Update m) l' s0 in
         StringStats.bytes_of m (StringStats.min_value_ s')
           = StringStats.bytes_of m (StringStats.min_value_ s)
         ∧ StringStats.bytes_of m (StringStats.max_value_ s')
           = StringStats.bytes_of m (StringStats.max_value_ s)).
Proof.
  assert (∀ (T : Type) (L : Less T) (_ : LessStrict T)
     (s0 : Generic.ColumnStats T) (v : T) (l l' : list T),
     Generic.has_values_ s0 = false → v :: l ≡ₚ l' →
     equiv_less (Generic.min_value_ (Generic.UpdateAll s0 (v :: l)))
                (Generic.min_value_ (Generic.UpdateAll s0 l'))
     ∧ equiv_less (Generic.max_value_ (Generic.UpdateAll s0 (v :: l)))
                  (Generic.max_value_ (Generic.UpdateAll s0 l'))) as Hperm.
  { intros T L HL s0 v l l' Hs0 Hp.
    destruct l' as [|v' l']; [by apply Permutation_nil_r in Hp|].
    destruct (GenericFacts.UpdateAll_extrema s0 v l Hs0) as [Hmin Hmax].
    destruct (GenericFacts.UpdateAll_extrema s0 v' l' Hs0) as [Hmin' Hmax'].
    split; [by eapply is_min_unique|by eapply is_max_unique]. }
  split.
  - intros T L HL s0 v l Hs0 s.
    destruct (GenericFacts.UpdateAll_extrema s0 v l Hs0) as [Hmin Hmax].
    split; [by apply GenericFacts.Update_fresh|].
    split; [intros; by apply GenericFacts.Update_later|].
    split; [unfold s; by rewrite GenericFacts.UpdateAll_has_values, Hs0|].
    do 2 (split; [done|]).
    intros l' Hp s'. destruct (Hperm T L HL s0 v l l' Hs0 Hp) as [Emin Emax].
    do 2 (split; [done|]). intros Htot.
    destruct Emin, Emax. split; by apply Htot.
  - intros m s0 v l Hs0 s.
    pose proof (StringOrder.base_UpdateAll m (v :: l) s0) as Hbase.
    fold s in Hbase.
    assert (Generic.has_values_ (StringStats.base s0) = false) as Hs0'
      by done.
    destruct (@GenericFacts.UpdateAll_extrema _ (StringStats.string_less m)
                (StringOrder.string_strict m) (StringStats.base s0) v l Hs0')
      as [[? Hlow] [? Hup]].
    rewrite <- Hbase in *.
    rewrite StringFacts.string_Update_fresh by done. simpl.
    do 3 (split; [done|]).
    split.
    { change (Generic.has_values_ (StringStats.base s) = true).
      by rewrite Hbase, GenericFacts.UpdateAll_has_values, Hs0'. }
    do 4 (split; [done|]).
    intros l' Hp.
    destruct (Hperm _ (StringStats.string_less m)
                (StringOrder.string_strict m) (StringStats.base s0)
                v l l' Hs0' Hp) as [Emin Emax].
    rewrite <- Hbase, <- (StringOrder.base_UpdateAll m l' s0) in Emin, Emax.
    apply StringOrder.equiv_less_bytes in Emin, Emax.
    split; symmetry; [exact Emin|exact Emax].
Qed.

Lemma C1_witness :
  (Generic.has_values_ Samples.ints_new = false
   ∧ is_min [5; 1; 9; 3]
       (Generic.min_value_ (Generic.UpdateAll Samples.ints_new [5; 1; 9; 3]))
   ∧ is_max [5; 1; 9; 3]
       (Generic.max_value_ (Generic.UpdateAll Samples.ints_new [5; 1; 9; 3])))
  ∧ (StringStats.has_values_ Samples.strings_new = false
     ∧ ∀ x, x ∈ [Samples.banana; Samples.apple; Samples.cherry] →
         StringStats.string_lt Samples.batch x
           (StringStats.min_value_
              (fold_left (StringStats.Update Samples.batch)
                 [Samples.banana; Samples.apple; Samples.cherry]
                 Samples.strings_new)) = false).
Proof.
  split.
  - split; [reflexivity|].
    pose proof (proj1 C1_update_tracks_min_max Z PlainModel.Z_less
                  PlainModelFacts.Z_strict Samples.ints_new 5 [1; 9; 3]
                  eq_refl) as Hc.
    exact (conj (proj1 (proj2 (proj2 (proj2 Hc))))
                (proj1 (proj2 (proj2 (proj2 (proj2 Hc)))))).
  - split; [reflexivity|].
    pose proof (proj2 C1_update_tracks_min_max Samples.batch
                  Samples.strings_new Samples.banana
                  [Samples.apple; Samples.cherry] eq_refl) as Hc.
    exact (proj1 (proj2 (proj2 (proj2 (proj2 (proj2 Hc)))))).
Defined.

(** Where [<] is not a strict weak order the extrema depend on the order
    of arrival: a value that compares false against everything stays when
    it comes first and is skipped when it comes later. *)
Example unordered_values_depend_on_arrival :
  let s0 := Generic.mkStats false None None (-1) in
  Generic.min_value_
    (Generic.UpdateAll (H := PlainModel.unordered_less) s0 [None; Some 1])
    = None
  ∧ Generic.min_value_
      (Generic.UpdateAll (H := PlainModel.unordered_less) s0 [Some 1; None])
    = Some 1.
Proof. split; reflexivity. Qed.

(** The examples of the specification: the integers 5, 1, 9, 3 have min 1
    and max 9; the strings banana, apple, cherry have min apple and max
    cherry, whatever the order they arrive in. *)
Example integers_5_1_9_3 :
  Generic.UpdateAll Samples.ints_new [5; 1; 9; 3] = Generic.mkStats true 1 9 (-1).
Proof. reflexivity. Qed.

Example strings_banana_apple_cherry :
  let s := fold_left (StringStats.Update Samples.batch)
             [Samples.banana; Samples.apple; Samples.cherry]
             Samples.strings_new in
  let s' := fold_left (StringStats.Update Samples.batch)
             [Samples.cherry; Samples.banana; Samples.apple]
             Samples.strings_new in
  StringStats.min_value_ s = Samples.apple
  ∧ StringStats.max_value_ s = Samples.cherry
  ∧ StringStats.min_value_ s' = Samples.apple
  ∧ StringStats.max_value_ s' = Samples.cherry.
Proof. vm_compute. auto. Qed.

Module StringMergeFacts.
Import StringStats StringOrder.

Section Facts.
Variable m : memory.

Lemma lt_irrefl (a : StringValue) : string_lt m a a = false.
Proof. apply (less_irrefl (H := string_less m)). Qed.

Lemma lt_trans (a b c : StringValue) :
  string_lt m a b = true → string_lt m b c = true → string_lt m a c = true.
Proof. apply (less_trans (H := string_less m)). Qed.

Lemma lt_negtrans (a b c : StringValue) :
  string_lt m a b = false → string_lt m b c = false →
  string_lt m a c = false.
Proof. apply (less_negtrans (H := string_less m)). Qed.

Lemma lt_bytes (a b : StringValue) :
  string_lt m a b = false → string_lt m b a = false →
  bytes_of m a = bytes_of m b.
Proof. intros Hab Hba. by apply (equiv_less_bytes m). Qed.

(** A reachable string accumulator with values has its min not above its
    max. *)
Lemma string_reachable_ordered (s : ColumnStats) :
  reachable m s → has_values_ s = true →
  string_lt m (max_value_ s) (min_value_ s) = false.
Proof.
  intros Hr%reachable_base Hs.
  apply (GenericFacts.reachable_ordered (H := string_less m)) in Hr.
  by apply Hr.
Qed.

(** One round of consequences of the comparisons at hand. *)
Ltac order_step :=
  match goal with
  | H1 : string_lt m ?a ?b = true, H2 : string_lt m ?b ?c = true |- _ =>
      lazymatch goal with
      | _ : string_lt m a c = true |- _ => fail
      | _ => pose proof (lt_trans a b c H1 H2)
      end
  | H1 : string_lt m ?a ?b = false, H2 : string_lt m ?b ?c = false |- _ =>
      lazymatch goal with
      | _ : string_lt m a c = false |- _ => fail
      | _ => pose proof (lt_negtrans a b c H1 H2)
      end
  end.

Ltac order := repeat order_step; first [congruence | by apply lt_bytes].

(** Merge against the two Updates, on every member of the string
    accumulator. *)
Lemma string_Merge_as_two_updates (s cs : ColumnStats) :
  has_values_ cs = true →
  string_lt m (max_value_ cs) (min_value_ cs) = false →
  let s' := Update m (Update m s (min_value_ cs)) (max_value_ cs) in
  has_values_ (Merge m s cs) = has_values_ s'
  ∧ min_value_ (Merge m s cs) = min_value_ s'
  ∧ bytes_of m (max_value_ (Merge m s cs)) = bytes_of m (max_value_ s')
  ∧ min_buffer_ (Merge m s cs) = min_buffer_ s'
  ∧ max_buffer_ (Merge m s cs) = max_buffer_ s'
  ∧ plain_encoded_value_size_ (Merge m s cs) = plain_encoded_value_size_ s'.
Proof.
  destruct s as [hv lo hi sz mbuf xbuf], cs as [hv' lo' hi' sz' mbuf' xbuf'].
  simpl. intros -> Hord.
  pose proof (lt_irrefl lo'). pose proof (lt_irrefl hi').
  unfold Merge, Update, assign_min, assign_max, set_has_values. simpl.
  destruct hv; simpl; rewrite ?string_gt_lt;
    repeat match goal with
           | |- context [string_lt m ?a ?b] =>
               destruct (string_lt m a b) eqn:?; simpl;
               rewrite ?string_gt_lt
           end; simpl in *; repeat split; order.
Qed.

End Facts.
End StringMergeFacts.

Module ReductionFacts.
Import Generic.

(** A reduction tree and one accumulator fed the same values, in whatever
    order, agree on has_values and end with incomparable extrema. *)
Lemma run_vs_direct {T : Type} `{Less T} `{!LessWeak T}
    (t : reduction) (s0 : ColumnStats T) (l : list T) :
  fresh_leaves t → has_values_ s0 = false → values t ≡ₚ l →
  has_values_ (run t) = has_values_ (UpdateAll s0 l)
  ∧ (l ≠ [] →
     equiv_less (min_value_ (run t)) (min_value_ (UpdateAll s0 l))
     ∧ equiv_less (max_value_ (run t)) (max_value_ (UpdateAll s0 l))).
Proof.
  intros Ht Hs0 Hp. split.
  - rewrite MergeFacts.run_has_values, GenericFacts.UpdateAll_has_values, Hs0
      by done.
    simpl. f_equal. apply bool_decide_ext. split; intros E.
    + rewrite E in Hp. by apply Permutation_nil_l in Hp.
    + rewrite E in Hp. by apply Permutation_nil_r in Hp.
  - intros Hl. destruct l as [|v l]; [done|].
    assert (values t ≠ []) as Hne.
    { intros E. rewrite E in Hp. by apply Permutation_nil_l in Hp. }
    destruct (MergeFacts.run_extrema t Ht Hne) as [Hmin Hmax].
    destruct (GenericFacts.UpdateAll_extrema s0 v l Hs0) as [Hmin' Hmax'].
    split; [by eapply is_min_unique|by eapply is_max_unique].
Qed.

End ReductionFacts.

(** C2.  For a type whose [<] is a strict weak order: accumulating the
    groups of a partition in accumulators of their own and merging the
    partial results pairwise, in any order and any association, gives the
    has_values of feeding any arrangement of all the values to one
    accumulator, and min and max values that are incomparable with (for a
    total order: equal to) the ones it gives.  Merge with a reachable
    accumulator that has values gives what two Updates with its min and
    its max give.  For strings the extrema hold the same bytes, and Merge
    leaves both buffers as the two Updates do. *)
Theorem C2_merge_of_partial_results :
  (∀ (T : Type) (L : Less T) (_ : LessWeak T) (t : Generic.reduction)
     (s0 : Generic.ColumnStats T) (l : list T),
     Generic.fresh_leaves t → Generic.has_values_ s0 = false →
     Generic.values t ≡ₚ l →
     let merged := Generic.run t in
     let direct := Generic.UpdateAll s0 l in
     Generic.has_values_ merged = Generic.has_values_ direct
     ∧ (l ≠ [] →
        equiv_less (Generic.min_value_ merged) (Generic.min_value_ direct)
        ∧ equiv_less (Generic.max_value_ merged) (Generic.max_value_ direct)
        ∧ (LessTotal T →
           Generic.min_value_ merged = Generic.min_value_ direct
           ∧ Generic.max_value_ merged = Generic.max_value_ direct)))
  ∧ (∀ (T : Type) (L : Less T) (_ : LessWeak T) (s cs : Generic.ColumnStats T),
     Generic.has_values_ cs = true → Generic.reachable cs →
     let s' := Generic.Update (Generic.Update s (Generic.min_value_ cs))
                 (Generic.max_value_ cs) in
     Generic.has_values_ (Generic.Merge s cs) = Generic.has_values_ s'
     ∧ Generic.min_value_ (Generic.Merge s cs) = Generic.min_value_ s'
     ∧ equiv_less (Generic.max_value_ (Generic.Merge s cs))
                  (Generic.max_value_ s')
     ∧ (LessTotal T → Generic.Merge s cs = s'))
  ∧ (∀ (m : StringStats.memory) (t : StringStats.reduction)
       (s0 : StringStats.ColumnStats) (l : list StringStats.StringValue),
     Generic.fresh_leaves (StringStats.erase t) →
     StringStats.has_values_ s0 = false →
     Generic.values (StringStats.erase t) ≡ₚ l →
     let merged := StringStats.run m t in
     let direct := fold_left (StringStats.Update m) l s0 in
     StringStats.has_values_ merged = StringStats.has_values_ direct
     ∧ (l ≠ [] →
        StringStats.bytes_of m (StringStats.min_value_ merged)
          = StringStats.bytes_of m (StringStats.min_value_ direct)
        ∧ StringStats.bytes_of m (StringStats.max_value_ merged)
          = StringStats.bytes_of m (StringStats.max_value_ direct)))
  ∧ (∀ (m : StringStats.memory) (s cs : StringStats.ColumnStats),
     StringStats.has_values_ cs = true → StringStats.reachable m cs →
     let s' := StringStats.Update m
                 (StringStats.Update m s (StringStats.min_value_ cs))
                 (StringStats.max_value_ cs) in
     StringStats.has_values_ (StringStats.Merge m s cs)
       = StringStats.has_values_ s'
     ∧ StringStats.min_value_ (StringStats.Merge m s cs)
       = StringStats.min_value_ s'
     ∧ StringStats.bytes_of m (StringStats.max_value_ (StringStats.Merge m s cs))
       = StringStats.bytes_of m (StringStats.max_value_ s')
     ∧ StringStats.min_buffer_ (StringStats.Merge m s cs)
       = StringStats.min_buffer_ s'
     ∧ StringStats.max_buffer_ (StringStats.Merge m s cs)
       = StringStats.max_buffer_ s').
Proof.
  split; [|split; [|split]].
  - intros T L HL t s0 l Ht Hs0 Hp merged direct.
    destruct (ReductionFacts.run_vs_direct t s0 l Ht Hs0 Hp) as [Hv Hx].
    split; [done|]. intros Hl. destruct (Hx Hl) as [Emin Emax].
    do 2 (split; [done|]). intros Htot. destruct Emin, Emax.
    split; by apply Htot.
  - intros T L HL s cs Hcs Hr s'.
    pose proof (@GenericFacts.reachable_ordered _ _ _ cs Hr) as Hord.
    by destruct (MergeFacts.Merge_as_two_updates s cs Hcs Hord)
      as (? & _ & ? & ? & ?).
  - intros m t s0 l Ht Hs0 Hp merged direct.
    destruct (@ReductionFacts.run_vs_direct _ (StringStats.string_less m)
                (StringOrder.string_weak m) (StringStats.erase t)
                (StringStats.base s0) l Ht Hs0 Hp) as [Hv Hx].
    rewrite <- StringReductionFacts.base_run, <- StringOrder.base_UpdateAll
      in Hv, Hx.
    split; [exact Hv|]. intros Hl. destruct (Hx Hl) as [Emin Emax].
    apply StringOrder.equiv_less_bytes in Emin, Emax.
    split; [exact Emin|exact Emax].
  - intros m s cs Hcs Hr s'.
    pose proof (StringMergeFacts.string_reachable_ordered m cs Hr Hcs) as Hord.
    by destruct (StringMergeFacts.string_Merge_as_two_updates m s cs Hcs Hord)
      as (? & ? & ? & ? & ? & _).
Qed.

Lemma C2_witness :
  let t := Generic.Combine (Generic.Group Samples.ints_new [5; 1; 9; 3])
                           (Generic.Group Samples.ints_new [-2; 9]) in
  let l := [-2; 9; 5; 1; 9; 3] in
  (Generic.fresh_leaves t ∧ Generic.has_values_ Samples.ints_new = false
   ∧ Generic.values t ≡ₚ l ∧ l ≠ [])
  ∧ (Generic.min_value_ (Generic.run t)
       = Generic.min_value_ (Generic.UpdateAll Samples.ints_new l)
     ∧ Generic.max_value_ (Generic.run t)
       = Generic.max_value_ (Generic.UpdateAll Samples.ints_new l))
  ∧ Generic.Merge (Generic.UpdateAll Samples.ints_new [5; 1; 9; 3])
                  (Generic.UpdateAll Samples.ints_new [-2; 9])
    = Generic.Update
        (Generic.Update (Generic.UpdateAll Samples.ints_new [5; 1; 9; 3]) (-2))
        9.
Proof.
  intros t l.
  assert (Generic.fresh_leaves t) as Ht by (split; reflexivity).
  assert (Generic.values t ≡ₚ l) as Hp
    by apply (Permutation_app_comm [5; 1; 9; 3] [-2; 9]).
  assert (l ≠ []) as Hl by discriminate.
  split; [done|]. split.
  - exact (proj2 (proj2 (proj2
             (proj1 C2_merge_of_partial_results Z PlainModel.Z_less
                PlainModelFacts.Z_weak t Samples.ints_new l Ht eq_refl Hp)
             Hl)) PlainModelFacts.Z_total).
  - refine (proj2 (proj2 (proj2
             (proj1 (proj2 C2_merge_of_partial_results) Z PlainModel.Z_less
                PlainModelFacts.Z_weak
                (Generic.UpdateAll Samples.ints_new [5; 1; 9; 3])
                (Generic.UpdateAll Samples.ints_new [-2; 9]) eq_refl _)))
             PlainModelFacts.Z_total).
    do 2 apply Generic.reach_update. by apply Generic.reach_new.
Defined.

(** The example of the specification: 5, 1, 9, 3 merged with -2, 9. *)
Example integers_merged :
  Generic.Merge (Generic.UpdateAll Samples.ints_new [5; 1; 9; 3])
                (Generic.UpdateAll Samples.ints_new [-2; 9])
  = Generic.mkStats true (-2) 9 (-1).
Proof. reflexivity. Qed.

(** C3.  Decoding the bytes produced by encoding a value with its computed
    byte size succeeds and gives the value back: for every boolean; for
    every string view that lies inside its block, whatever its bytes and
    also when it is empty (the decoded view has the length and the bytes of
    the original); for every type served by the generic wrappers, wherever
    the plain encoder round-trips the value at that size; and for
    timestamps under the same condition when the value is a valid date. *)
Theorem C3_plain_value_roundtrip :
  (∀ (s : Generic.ColumnStats bool) (v : bool) (out : list byte) (slot : bool),
     ∃ bs, BoolStats.EncodePlainValue v (BoolStats.BytesNeeded s v) out
             = Done bs
         ∧ BoolStats.DecodePlainValue bs slot = Done (true, v))
  ∧ (∀ (m : StringStats.memory) (v : StringStats.StringValue)
       (bytes_needed : Z) (out : list byte),
     StringStats.valid m v →
     ∃ bs, StringStats.EncodePlainValue m v bytes_needed out = Done bs
         ∧ ∀ (m' : StringStats.memory) (buffer : N)
             (slot : StringStats.StringValue),
             m' !!! buffer = bs →
             ∃ r, StringStats.DecodePlainValue m' buffer slot = (true, r)
                ∧ StringStats.len r = StringStats.len v
                ∧ StringStats.bytes_of m' r = StringStats.bytes_of m v)
  ∧ (∀ (T : Type) (E : ParquetPlainEncoder T) (s : Generic.ColumnStats T)
       (v : T) (out : list byte) (slot : T),
     plain_roundtrip v (Codec.BytesNeeded s v) →
     ∃ bs, Codec.EncodePlainValue v (Codec.BytesNeeded s v) out = Done bs
         ∧ Codec.DecodePlainValue bs slot = (true, v))
  ∧ (∀ (T : Type) (E : ParquetPlainEncoder T) (IsValidDate : T → bool)
       (s : Generic.ColumnStats T) (v : T) (out : list byte) (slot : T),
     plain_roundtrip v (Codec.BytesNeeded s v) → IsValidDate v = true →
     ∃ bs, Codec.EncodePlainValue v (Codec.BytesNeeded s v) out = Done bs
         ∧ TimestampStats.DecodePlainValue IsValidDate bs slot = (true, v)).
Proof.
  split; [|split; [|split]].
  - intros s v out slot. eexists. split; [reflexivity|].
    rewrite BoolFacts.Decode_one. by destruct v.
  - intros m v bytes_needed out Hv. eexists. split; [reflexivity|].
    intros m' buffer slot Hm'. eexists. split; [reflexivity|]. simpl.
    rewrite Hm'. split.
    + by apply MaterializeFacts.length_bytes_of.
    + rewrite MaterializeFacts.bytes_of_owned, Hm'. by rewrite take_ge.
  - intros T E s v out slot Hrt. by apply CodecFacts.generic_roundtrip.
  - intros T E IsValidDate s v out slot Hrt Hvalid.
    destruct (CodecFacts.generic_roundtrip v _ out slot Hrt)
      as (bs & Henc & Hdec).
    exists bs. split; [done|].
    by rewrite CodecFacts.timestamp_decode_spec, Hdec, Hvalid.
Qed.

Lemma C3_witness :
  (plain_roundtrip (H := PlainModel.int32_encoder) (-2)
     (Codec.BytesNeeded (H := PlainModel.int32_encoder) Samples.ints_new (-2))
   ∧ ∃ bs, Codec.EncodePlainValue (H := PlainModel.int32_encoder) (-2) 4 []
             = Done bs
         ∧ Codec.DecodePlainValue (H := PlainModel.int32_encoder) bs 0
             = (true, -2))
  ∧ (StringStats.valid Samples.batch Samples.apple
     ∧ ∃ bs, StringStats.EncodePlainValue Samples.batch Samples.apple 5 []
               = Done bs
           ∧ ∃ r, StringStats.DecodePlainValue (<[20%N := bs]> ∅) 20
                    Samples.null = (true, r)
                ∧ StringStats.bytes_of (<[20%N := bs]> ∅) r
                  = StringStats.bytes_of Samples.batch Samples.apple)
  ∧ (PlainModel.IsValidDate Samples.noon = true
     ∧ ∃ bs, Codec.EncodePlainValue (H := PlainModel.timestamp_encoder)
               Samples.noon 12 [] = Done bs
           ∧ TimestampStats.DecodePlainValue
               (H := PlainModel.timestamp_encoder) PlainModel.IsValidDate
               bs (PlainModel.mkTimestamp 0 0) = (true, Samples.noon)).
Proof.
  split; [|split].
  - assert (plain_roundtrip (H := PlainModel.int32_encoder) (-2)
              (Codec.BytesNeeded (H := PlainModel.int32_encoder)
                 Samples.ints_new (-2))) as Hrt.
    { apply (PlainModelFacts.int_roundtrip 4 (-2)); [lia|simpl; lia]. }
    split; [exact Hrt|].
    exact (proj1 (proj2 (proj2 C3_plain_value_roundtrip)) Z
             PlainModel.int32_encoder Samples.ints_new (-2) [] 0 Hrt).
  - assert (StringStats.valid Samples.batch Samples.apple) as Hv
      by (vm_compute; lia).
    split; [exact Hv|].
    destruct (proj1 (proj2 C3_plain_value_roundtrip) Samples.batch
                Samples.apple 5 [] Hv) as (bs & Henc & Hdec).
    exists bs. split; [exact Henc|].
    destruct (Hdec (<[20%N := bs]> ∅) 20%N Samples.null
                (lookup_total_insert_eq _ _ _)) as (r & Hr & _ & Hbytes).
    by exists r.
  - split; [reflexivity|].
    refine (proj2 (proj2 (proj2 C3_plain_value_roundtrip)) PlainModel.Timestamp
              PlainModel.timestamp_encoder PlainModel.IsValidDate
              (Generic.mkStats false Samples.noon Samples.noon (-1))
              Samples.noon [] (PlainModel.mkTimestamp 0 0) _ eq_refl).
    apply PlainModelFacts.timestamp_roundtrip; simpl; lia.
Defined.

(** The example of the specification: min -2 and max 9 are written as two
    four-byte little-endian sequences. *)
Example integers_encoded :
  Codec.EncodeToThrift
    (Codec.EncodePlainValue (H := PlainModel.int32_encoder))
    (Codec.BytesNeeded (H := PlainModel.int32_encoder))
    (Generic.mkStats true (-2) 9 (-1)) (mkStatistics None None)
  = Done (mkStatistics (Some [Byte.xfe; Byte.xff; Byte.xff; Byte.xff])
                       (Some [Byte.x09; Byte.x00; Byte.x00; Byte.x00])).
Proof. vm_compute. reflexivity. Qed.

(** C4, as the code has it.  For the boolean specialisation
    EncodePlainValue always produces exactly one byte, 1 for true and 0
    for false, and BytesNeeded is 1.  DecodePlainValue never returns a
    decode failure: a buffer whose length is not exactly 1 violates its
    DCHECK, and for a buffer of length 1 it succeeds with the value
    (byte != 0). *)
Theorem C4_bool_codec :
  (∀ (v : bool) (bytes_needed : Z) (out : list byte),
     ∃ c, BoolStats.EncodePlainValue v bytes_needed out = Done [c]
        ∧ c = (if v then Byte.x01 else Byte.x00))
  ∧ (∀ s v, BoolStats.BytesNeeded s v = 1)
  ∧ (∀ (c : byte) (slot : bool),
       BoolStats.DecodePlainValue [c] slot
         = Done (true, bool_decide (c ≠ Byte.x00)))
  ∧ (∀ (buffer : list byte) (slot : bool),
       length buffer ≠ 1%nat →
       BoolStats.DecodePlainValue buffer slot = DcheckFailed)
  ∧ (∀ (buffer : list byte) (slot result : bool),
       BoolStats.DecodePlainValue buffer slot ≠ Done (false, result)).
Proof.
  split; [|split; [|split; [|split]]].
  - intros v bytes_needed out. by eexists.
  - done.
  - apply BoolFacts.Decode_one.
  - apply BoolFacts.Decode_other.
  - intros buffer slot result. unfold BoolStats.DecodePlainValue.
    by destruct (length buffer =? 1)%nat.
Qed.

Lemma C4_witness :
  length ([] : list byte) ≠ 1%nat
  ∧ BoolStats.DecodePlainValue [] false = DcheckFailed.
Proof.
  split; [discriminate|].
  apply (proj1 (proj2 (proj2 (proj2 C4_bool_codec)))). discriminate.
Defined.

(** C4 as stated fails at the buffer of the two bytes 01 00, whose length
    is not 1: DecodePlainValue runs into its DCHECK and does not return a
    decode failure. *)
Lemma C4_counterexample :
  let buffer := [Byte.x01; Byte.x00] in
  length buffer ≠ 1%nat
  ∧ BoolStats.DecodePlainValue buffer false = DcheckFailed
  ∧ ¬ ∃ result, BoolStats.DecodePlainValue buffer false
                  = Done (false, result).
Proof.
  intros buffer. split; [discriminate|]. split; [reflexivity|].
  intros [result Hr]. discriminate Hr.
Qed.

(** C5.  The timestamp DecodePlainValue performs the fixed-width decode;
    when that reports -1 it returns failure, and otherwise it returns
    whether the decoded timestamp is a valid date.  So it succeeds exactly
    when the fixed-width decode succeeds and the decoded value is valid,
    and it fails on every buffer that the generic decoder accepts but
    whose value is not a valid date. *)
Theorem C5_timestamp_decode_validates :
  ∀ (T : Type) (E : ParquetPlainEncoder T) (IsValidDate : T → bool)
    (buffer : list byte) (slot : T),
    let size := to_int32 (Z.of_nat (length buffer)) in
    let rc := (Decode buffer size slot).1 in
    let decoded := (Decode buffer size slot).2 in
    TimestampStats.DecodePlainValue IsValidDate buffer slot
      = (negb (rc =? -1) && IsValidDate decoded, decoded)
    ∧ ((TimestampStats.DecodePlainValue IsValidDate buffer slot).1 = true
       ↔ rc ≠ -1 ∧ IsValidDate decoded = true)
    ∧ (Codec.DecodePlainValue buffer slot = (true, decoded) →
       IsValidDate decoded = false →
       TimestampStats.DecodePlainValue IsValidDate buffer slot
         = (false, decoded)).
Proof.
  intros T E IsValidDate buffer slot size rc decoded.
  unfold TimestampStats.DecodePlainValue, Codec.DecodePlainValue.
  subst rc decoded. fold size. destruct (Decode buffer size slot) as [rc r].
  simpl. destruct (Z.eqb_spec rc (-1)) as [->|Hrc]; simpl.
  - repeat split; try done. by intros [? _].
  - repeat split; try done.
    + by intros [_ ?].
    + by intros _ ->.
Qed.

(** Twelve bytes of the right width whose time of day is negative: the
    fixed-width decode succeeds, the timestamp decode rejects them. *)
Lemma C5_witness :
  let buffer := le_split 8 (-1) ++ le_split 4 2458000 in
  let slot := PlainModel.mkTimestamp 0 0 in
  Codec.DecodePlainValue (H := PlainModel.timestamp_encoder) buffer slot
    = (true, PlainModel.mkTimestamp (-1) 2458000)
  ∧ PlainModel.IsValidDate (PlainModel.mkTimestamp (-1) 2458000) = false
  ∧ TimestampStats.DecodePlainValue (H := PlainModel.timestamp_encoder)
      PlainModel.IsValidDate buffer slot
    = (false, PlainModel.mkTimestamp (-1) 2458000).
Proof.
  intros buffer slot.
  assert (Codec.DecodePlainValue (H := PlainModel.timestamp_encoder)
            buffer slot = (true, PlainModel.mkTimestamp (-1) 2458000)) as Hd
    by (vm_compute; reflexivity).
  split; [exact Hd|]. split; [reflexivity|].
  exact (proj2 (proj2 (C5_timestamp_decode_validates PlainModel.Timestamp
           PlainModel.timestamp_encoder PlainModel.IsValidDate buffer slot))
           Hd eq_refl).
Defined.

(** C6.  For a type whose [<] is a strict order, every accumulator state
    reachable from an empty one by Update and by Merge with reachable
    accumulators of the same type has, when has_values is true, a min_value
    that is not above its max_value; Update preserves this invariant, and
    so does Merge with an accumulator that satisfies it.  The same holds
    for the string specialisation in the byte-lexicographic order. *)
Theorem C6_min_not_above_max :
  (∀ (T : Type) (L : Less T) (_ : LessStrict T),
     (∀ s : Generic.ColumnStats T,
        Generic.reachable s → Generic.has_values_ s = true →
        less (Generic.max_value_ s) (Generic.min_value_ s) = false)
     ∧ (∀ (s : Generic.ColumnStats T) (v : T),
          Generic.ordered s → Generic.ordered (Generic.Update s v))
     ∧ (∀ s cs : Generic.ColumnStats T,
          Generic.ordered s → Generic.ordered cs →
          Generic.ordered (Generic.Merge s cs)))
  ∧ (∀ (m : StringStats.memory) (s : StringStats.ColumnStats),
       StringStats.reachable m s → StringStats.has_values_ s = true →
       StringStats.string_lt m (StringStats.max_value_ s)
         (StringStats.min_value_ s) = false).
Proof.
  split.
  - intros T L HL. split; [|split].
    + intros s Hr Hs. by apply (GenericFacts.reachable_ordered s Hr).
    + apply GenericFacts.Update_ordered.
    + apply GenericFacts.Merge_ordered.
  - apply StringMergeFacts.string_reachable_ordered.
Qed.

Lemma C6_witness :
  let s := Generic.Merge (Generic.UpdateAll Samples.ints_new [5; 1; 9; 3])
                         (Generic.UpdateAll Samples.ints_new [-2; 9]) in
  (Generic.reachable s ∧ Generic.has_values_ s = true)
  ∧ less (Generic.max_value_ s) (Generic.min_value_ s) = false.
Proof.
  intros s.
  assert (Generic.reachable s) as Hr.
  { apply Generic.reach_merge; repeat apply Generic.reach_update;
      by apply Generic.reach_new. }
  split; [by split|].
  exact (proj1 (proj1 C6_min_not_above_max Z PlainModel.Z_less
                  PlainModelFacts.Z_strict) s Hr eq_refl).
Defined.

(** C8.  For the string specialisation, an Update that assigns min_value
    (the accumulator was empty, or the value is below min_value) leaves
    min_value equal to the new value and the min buffer marked empty; an
    Update whose comparison does not assign leaves min_value and the min
    buffer as they were; the same holds for max_value and the max buffer,
    with the value above max_value.  Merge with an accumulator that has
    values does the same with that accumulator's min on the min side and
    its max on the max side, and Merge with an empty one changes
    nothing. *)
Theorem C8_buffers_follow_assignments :
  ∀ (m : StringStats.memory) (s : StringStats.ColumnStats),
    (∀ v : StringStats.StringValue,
       let s' := StringStats.Update m s v in
       (StringStats.has_values_ s = false
        ∨ StringStats.string_lt m v (StringStats.min_value_ s) = true →
        StringStats.min_value_ s' = v
        ∧ StringStats.IsEmpty (StringStats.min_buffer_ s') = true)
       ∧ (StringStats.has_values_ s = true →
          StringStats.string_lt m v (StringStats.min_value_ s) = false →
          StringStats.min_value_ s' = StringStats.min_value_ s
          ∧ StringStats.min_buffer_ s' = StringStats.min_buffer_ s)
       ∧ (StringStats.has_values_ s = false
          ∨ StringStats.string_gt m v (StringStats.max_value_ s) = true →
          StringStats.max_value_ s' = v
          ∧ StringStats.IsEmpty (StringStats.max_buffer_ s') = true)
       ∧ (StringStats.has_values_ s = true →
          StringStats.string_gt m v (StringStats.max_value_ s) = false →
          StringStats.max_value_ s' = StringStats.max_value_ s
          ∧ StringStats.max_buffer_ s' = StringStats.max_buffer_ s))
    ∧ (∀ cs : StringStats.ColumnStats,
         let s' := StringStats.Merge m s cs in
         let lo := StringStats.min_value_ cs in
         let hi := StringStats.max_value_ cs in
         (StringStats.has_values_ cs = false → s' = s)
         ∧ (StringStats.has_values_ cs = true →
            (StringStats.has_values_ s = false
             ∨ StringStats.string_lt m lo (StringStats.min_value_ s) = true →
             StringStats.min_value_ s' = lo
             ∧ StringStats.IsEmpty (StringStats.min_buffer_ s') = true)
            ∧ (StringStats.has_values_ s = true →
               StringStats.string_lt m lo (StringStats.min_value_ s) = false →
               StringStats.min_value_ s' = StringStats.min_value_ s
               ∧ StringStats.min_buffer_ s' = StringStats.min_buffer_ s)
            ∧ (StringStats.has_values_ s = false
               ∨ StringStats.string_gt m hi (StringStats.max_value_ s) = true →
               StringStats.max_value_ s' = hi
               ∧ StringStats.IsEmpty (StringStats.max_buffer_ s') = true)
            ∧ (StringStats.has_values_ s = true →
               StringStats.string_gt m hi (StringStats.max_value_ s) = false →
               StringStats.max_value_ s' = StringStats.max_value_ s
               ∧ StringStats.max_buffer_ s' = StringStats.max_buffer_ s))).
Proof.
  intros m s. split.
  - intros v s'. subst s'. split; [|split; [|split]].
    + intros Hc.
      destruct (StringFacts.Update_min_assigned m s v Hc) as [-> ->]. done.
    + apply StringFacts.Update_min_kept.
    + intros Hc.
      destruct (StringFacts.Update_max_assigned m s v Hc) as [-> ->]. done.
    + apply StringFacts.Update_max_kept.
  - intros cs s' lo hi. subst s' lo hi. split.
    + apply StringFacts.string_Merge_empty_other.
    + intros Hcs.
      destruct (StringFacts.Merge_min_side m s cs Hcs) as [-> ->].
      destruct (StringFacts.Merge_max_side m s cs Hcs) as [-> ->].
      split; [|split; [|split]].
      * intros Hc.
        by destruct (StringFacts.Update_min_assigned m s _ Hc) as [-> ->].
      * apply StringFacts.Update_min_kept.
      * intros Hc.
        by destruct (StringFacts.Update_max_assigned m s _ Hc) as [-> ->].
      * apply StringFacts.Update_max_kept.
Qed.

(** A materialized accumulator whose min is replaced: the min buffer is
    marked empty, the max side is untouched. *)
Lemma C8_witness :
  let m := Samples.batch in
  let s := (StringStats.MaterializeStringValuesToInternalBuffers m
              (StringStats.Update m Samples.strings_new Samples.banana)).2 in
  let m' := (StringStats.MaterializeStringValuesToInternalBuffers m
              (StringStats.Update m Samples.strings_new Samples.banana)).1 in
  let s' := StringStats.Update m' s Samples.apple in
  (StringStats.string_lt m' Samples.apple (StringStats.min_value_ s) = true
   ∧ StringStats.has_values_ s = true
   ∧ StringStats.string_gt m' Samples.apple (StringStats.max_value_ s) = false)
  ∧ StringStats.IsEmpty (StringStats.min_buffer_ s) = false
  ∧ (StringStats.min_value_ s' = Samples.apple
     ∧ StringStats.IsEmpty (StringStats.min_buffer_ s') = true)
  ∧ (StringStats.max_value_ s' = StringStats.max_value_ s
     ∧ StringStats.max_buffer_ s' = StringStats.max_buffer_ s).
Proof.
  intros m s m' s'.
  assert (StringStats.string_lt m' Samples.apple (StringStats.min_value_ s)
          = true) as Hlt by (vm_compute; reflexivity).
  assert (StringStats.string_gt m' Samples.apple (StringStats.max_value_ s)
          = false) as Hgt by (vm_compute; reflexivity).
  split; [by repeat split|]. split; [reflexivity|].
  destruct (proj1 (C8_buffers_follow_assignments m' s) Samples.apple)
    as (Hmin & _ & _ & Hmax).
  split; [exact (Hmin (or_intror Hlt))|exact (Hmax eq_refl Hgt)].
Defined.

Module IdempotenceFacts.
Import StringStats MaterializeFacts.

Lemma bytes_of_empty (m : memory) (v : StringValue) :
  len v = 0%nat → bytes_of m v = [].
Proof. unfold bytes_of, load. by intros ->. Qed.

(** A side that holds an empty value has an empty buffer. *)
Lemma side_ok_empty (s : ColumnStats) (b : StringBuffer) (v : StringValue) :
  side_ok s b v → len v = 0%nat → IsEmpty b = true.
Proof.
  unfold IsEmpty. intros [[_ <-]|[-> _]] Hv; [by rewrite Hv|done].
Qed.

Lemma Materialize_result_wf (m : memory) (s : ColumnStats) :
  wf s → wf (MaterializeStringValuesToInternalBuffers m s).2.
Proof.
  intros Hwf. rewrite Materialize_wf by done. destruct Hwf as (Hne & _ & _).
  cbn [snd]. unfold wf, side_ok. simpl.
  split; [exact Hne|split; left; split; reflexivity].
Qed.

(** Materializing what was just materialized changes neither the memory
    nor the accumulator. *)
Lemma Materialize_idempotent (m : memory) (s : ColumnStats) :
  wf s →
  let r := MaterializeStringValuesToInternalBuffers m s in
  MaterializeStringValuesToInternalBuffers r.1 r.2 = r.
Proof.
  intros Hwf r. pose proof (Materialize_result_wf m s Hwf) as Hwf'.
  fold r in Hwf'. rewrite (Materialize_wf r.1 r.2 Hwf').
  destruct Hwf as (Hne & Hlo & Hhi).
  subst r. rewrite Materialize_wf by done. cbn [fst snd].
  set (mb := buffer_ (min_buffer_ s)) in *.
  set (xb := buffer_ (max_buffer_ s)) in *.
  set (m1 := if IsEmpty (min_buffer_ s)
             then <[mb:=bytes_of m (min_value_ s)]> m else m).
  set (m2 := if IsEmpty (max_buffer_ s)
             then <[xb:=bytes_of m (max_value_ s)]> m1 else m1).
  assert (len (min_value_ s) = 0%nat → m2 !! mb = Some []) as Hmb.
  { intros Ell. subst m2 m1. rewrite (side_ok_empty s _ _ Hlo Ell).
    rewrite (bytes_of_empty m (min_value_ s)) by done.
    destruct (IsEmpty (max_buffer_ s));
      [rewrite lookup_insert_ne by done|]; apply lookup_insert_eq. }
  assert (len (max_value_ s) = 0%nat → m2 !! xb = Some []) as Hxb.
  { intros Ehl. subst m2. rewrite (side_ok_empty s _ _ Hhi Ehl).
    rewrite (bytes_of_empty m (max_value_ s)) by done.
    apply lookup_insert_eq. }
  clearbody m2. simpl. f_equal. unfold IsEmpty. simpl.
  destruct (Nat.eqb_spec (len (min_value_ s)) 0) as [Ell|_];
    destruct (Nat.eqb_spec (len (max_value_ s)) 0) as [Ehl|_];
    rewrite ?bytes_of_owned, ?Ell, ?Ehl; simpl;
    rewrite ?(insert_id m2 mb []) by auto;
    rewrite ?(insert_id m2 xb []) by auto; done.
Qed.

End IdempotenceFacts.

Module LifetimeFacts.
Import StringStats MaterializeFacts.

Lemma take_bytes_of (m : memory) (v : StringValue) :
  take (len v) (bytes_of m v) = bytes_of m v.
Proof.
  apply take_ge. unfold bytes_of, load. rewrite length_take. lia.
Qed.

(** After materializing, each buffer holds the bytes its value referred to
    before. *)
Lemma Materialize_contents (m : memory) (s : ColumnStats) :
  wf s →
  let r := MaterializeStringValuesToInternalBuffers m s in
  contents r.1 (min_buffer_ r.2) = bytes_of m (min_value_ s)
  ∧ contents r.1 (max_buffer_ r.2) = bytes_of m (max_value_ s).
Proof.
  intros Hwf r. subst r. rewrite Materialize_wf by done.
  destruct Hwf as (Hne & Hlo & Hhi). unfold contents. cbn [fst snd].
  simpl. unfold IsEmpty. split.
  - destruct (Nat.eqb_spec (len_ (max_buffer_ s)) 0) as [_|_];
      rewrite ?lookup_total_insert_ne by done;
      destruct (Nat.eqb_spec (len_ (min_buffer_ s)) 0) as [E|E].
    + by rewrite lookup_total_insert_eq, take_bytes_of.
    + by destruct Hlo as [[Hp _]|[? _]]; [unfold bytes_of, load; rewrite Hp|].
    + by rewrite lookup_total_insert_eq, take_bytes_of.
    + by destruct Hlo as [[Hp _]|[? _]]; [unfold bytes_of, load; rewrite Hp|].
  - destruct (Nat.eqb_spec (len_ (max_buffer_ s)) 0) as [E|E].
    + by rewrite lookup_total_insert_eq, take_bytes_of.
    + destruct Hhi as [[Hp _]|[? _]]; [|done].
      unfold bytes_of, load. rewrite Hp. simpl.
      destruct (len_ (min_buffer_ s) =? 0)%nat;
        by rewrite ?lookup_total_insert_ne.
Qed.

(** After materializing, both values are views of the owned buffers. *)
Lemma Materialize_views (m : memory) (s : ColumnStats) :
  wf s →
  let r := MaterializeStringValuesToInternalBuffers m s in
  buffer_ (min_buffer_ r.2) = buffer_ (min_buffer_ s)
  ∧ buffer_ (max_buffer_ r.2) = buffer_ (max_buffer_ s)
  ∧ min_value_ r.2
    = mkStringValue (buffer_ (min_buffer_ s), 0%nat) (len_ (min_buffer_ r.2))
  ∧ max_value_ r.2
    = mkStringValue (buffer_ (max_buffer_ s), 0%nat) (len_ (max_buffer_ r.2)).
Proof. intros Hwf r. subst r. by rewrite Materialize_wf. Qed.

(** A side whose buffer holds bytes is left alone. *)
Lemma Materialize_min_kept (m : memory) (s : ColumnStats) :
  wf s → IsEmpty (min_buffer_ s) = false →
  let r := MaterializeStringValuesToInternalBuffers m s in
  min_value_ r.2 = min_value_ s ∧ min_buffer_ r.2 = min_buffer_ s
  ∧ r.1 !! buffer_ (min_buffer_ s) = m !! buffer_ (min_buffer_ s).
Proof.
  intros Hwf He r. subst r. rewrite Materialize_wf by done.
  destruct Hwf as (Hne & Hlo & Hhi). cbn [fst snd]. rewrite He. simpl.
  unfold IsEmpty in He. apply Nat.eqb_neq in He.
  destruct Hlo as [[Hp Hl]|[? _]]; [|done].
  destruct (min_value_ s) as [p l], (min_buffer_ s) as [b n].
  simpl in *. subst. repeat split.
  destruct (IsEmpty (max_buffer_ s)); by rewrite ?lookup_insert_ne.
Qed.

Lemma Materialize_max_kept (m : memory) (s : ColumnStats) :
  wf s → IsEmpty (max_buffer_ s) = false →
  let r := MaterializeStringValuesToInternalBuffers m s in
  max_value_ r.2 = max_value_ s ∧ max_buffer_ r.2 = max_buffer_ s
  ∧ r.1 !! buffer_ (max_buffer_ s) = m !! buffer_ (max_buffer_ s).
Proof.
  intros Hwf He r. subst r. rewrite Materialize_wf by done.
  destruct Hwf as (Hne & Hlo & Hhi). cbn [fst snd]. rewrite He. simpl.
  unfold IsEmpty in He. apply Nat.eqb_neq in He.
  destruct Hhi as [[Hp Hl]|[? _]]; [|done].
  destruct (max_value_ s) as [p l], (max_buffer_ s) as [b n].
  simpl in *. subst. repeat split.
  destruct (IsEmpty (min_buffer_ s)); by rewrite ?lookup_insert_ne.
Qed.

End LifetimeFacts.

(** C7.  For a string accumulator in which each value is either the view
    of its own buffer or, with the buffer empty, borrowed from memory the
    accumulator does not own: materializing twice in a row gives what
    materializing once gives; after the first call (and so after the
    second) the min and max buffers hold the bytes that min_value and
    max_value referred to at the first call; a side whose buffer is already
    non-empty is left as it is; and whatever happens afterwards to memory
    outside the two owned buffers, min_value and max_value still report
    those bytes. *)
Theorem C7_materialize_idempotent :
  ∀ (m : StringStats.memory) (s : StringStats.ColumnStats),
    StringStats.wf s →
    let r1 := StringStats.MaterializeStringValuesToInternalBuffers m s in
    let r2 := StringStats.MaterializeStringValuesToInternalBuffers r1.1 r1.2 in
    let mb := StringStats.buffer_ (StringStats.min_buffer_ s) in
    let xb := StringStats.buffer_ (StringStats.max_buffer_ s) in
    r2 = r1
    ∧ StringStats.contents r1.1 (StringStats.min_buffer_ r1.2)
      = StringStats.bytes_of m (StringStats.min_value_ s)
    ∧ StringStats.contents r1.1 (StringStats.max_buffer_ r1.2)
      = StringStats.bytes_of m (StringStats.max_value_ s)
    ∧ StringStats.contents r2.1 (StringStats.min_buffer_ r2.2)
      = StringStats.bytes_of m (StringStats.min_value_ s)
    ∧ StringStats.contents r2.1 (StringStats.max_buffer_ r2.2)
      = StringStats.bytes_of m (StringStats.max_value_ s)
    ∧ (StringStats.IsEmpty (StringStats.min_buffer_ s) = false →
       StringStats.min_value_ r1.2 = StringStats.min_value_ s
       ∧ StringStats.min_buffer_ r1.2 = StringStats.min_buffer_ s
       ∧ r1.1 !! mb = m !! mb)
    ∧ (StringStats.IsEmpty (StringStats.max_buffer_ s) = false →
       StringStats.max_value_ r1.2 = StringStats.max_value_ s
       ∧ StringStats.max_buffer_ r1.2 = StringStats.max_buffer_ s
       ∧ r1.1 !! xb = m !! xb)
    ∧ (∀ m' : StringStats.memory,
         m' !!! mb = r1.1 !!! mb → m' !!! xb = r1.1 !!! xb →
         StringStats.bytes_of m' (StringStats.min_value_ r1.2)
           = StringStats.bytes_of m (StringStats.min_value_ s)
         ∧ StringStats.bytes_of m' (StringStats.max_value_ r1.2)
           = StringStats.bytes_of m (StringStats.max_value_ s)).
Proof.
  intros m s Hwf r1 r2 mb xb.
  assert (r2 = r1) as Hidem by by apply IdempotenceFacts.Materialize_idempotent.
  destruct (LifetimeFacts.Materialize_contents m s Hwf) as [Hlo Hhi].
  fold r1 in Hlo, Hhi.
  split; [done|]. do 2 (split; [done|]). rewrite Hidem.
  do 2 (split; [done|]).
  split; [by apply LifetimeFacts.Materialize_min_kept|].
  split; [by apply LifetimeFacts.Materialize_max_kept|].
  intros m' Hmb Hxb.
  destruct (LifetimeFacts.Materialize_views m s Hwf)
    as (Hbm & Hbx & Hvlo & Hvhi).
  fold r1 mb xb in Hbm, Hbx, Hvlo, Hvhi. rewrite Hvlo, Hvhi.
  rewrite !MaterializeFacts.bytes_of_owned, Hmb, Hxb.
  rewrite <- Hlo, <- Hhi. unfold StringStats.contents.
  by rewrite Hbm, Hbx.
Qed.

(** After banana, apple and cherry the accumulator is materialized and the
    row batch is reused; min and max are still apple and cherry. *)
Lemma C7_witness :
  let m := Samples.batch in
  let s := fold_left (StringStats.Update m)
             [Samples.banana; Samples.apple; Samples.cherry]
             Samples.strings_new in
  let r1 := StringStats.MaterializeStringValuesToInternalBuffers m s in
  let m' := Samples.reuse r1.1 in
  StringStats.wf s
  ∧ (StringStats.bytes_of m' (StringStats.min_value_ r1.2)
       = list_byte_of_string "apple"
     ∧ StringStats.bytes_of m' (StringStats.max_value_ r1.2)
       = list_byte_of_string "cherry")
  ∧ StringStats.bytes_of m' Samples.apple ≠ list_byte_of_string "apple".
Proof.
  intros m s r1 m'.
  assert (StringStats.wf s) as Hwf.
  { repeat apply StringFacts.wf_Update;
      first [ by split | by (split; [|split; right]) ]. }
  split; [exact Hwf|]. split; [|by vm_compute].
  exact (proj2 (proj2 (proj2 (proj2 (proj2 (proj2 (proj2
           (C7_materialize_idempotent m s Hwf))))))) m' eq_refl eq_refl).
Defined.

(** C9.  An accumulator with has_values false is refused by
    EncodeToThrift: the DCHECK on has_values fails and no Statistics is
    produced, whatever the type and its encoder.  Passed as the other
    argument of Merge it leaves the receiving accumulator as it was. *)
Theorem C9_empty_accumulator :
  (∀ (T : Type) (encode : T → Z → list byte → outcome (list byte))
     (needed : Generic.ColumnStats T → T → Z)
     (s : Generic.ColumnStats T) (out : Statistics),
     Generic.has_values_ s = false →
     Codec.EncodeToThrift encode needed s out = DcheckFailed
     ∧ (∀ result, Codec.EncodeToThrift encode needed s out ≠ Done result)
     ∧ (∀ (L : Less T) (r : Generic.ColumnStats T), Generic.Merge r s = r))
  ∧ (∀ (m : StringStats.memory)
       (E : ParquetPlainEncoder StringStats.StringValue)
       (s : StringStats.ColumnStats) (out : Statistics),
     StringStats.has_values_ s = false →
     StringStats.EncodeToThrift m s out = DcheckFailed
     ∧ (∀ r : StringStats.ColumnStats, StringStats.Merge m r s = r)).
Proof.
  split.
  - intros T encode needed s out Hs.
    rewrite CodecFacts.EncodeToThrift_empty by done.
    split; [done|]. split; [done|].
    intros L r. by apply GenericFacts.Merge_empty_other.
  - intros m E s out Hs. split.
    + by apply CodecFacts.EncodeToThrift_empty.
    + intros r. by apply StringFacts.string_Merge_empty_other.
Qed.

Lemma C9_witness :
  Generic.has_values_ Samples.bools_new = false
  ∧ BoolStats.EncodeToThrift Samples.bools_new (mkStatistics None None)
    = DcheckFailed
  ∧ Generic.Merge (Generic.UpdateAll Samples.bools_new [true; false])
                  Samples.bools_new
    = Generic.UpdateAll Samples.bools_new [true; false].
Proof.
  split; [reflexivity|].
  destruct (proj1 C9_empty_accumulator bool BoolStats.EncodePlainValue
              BoolStats.BytesNeeded Samples.bools_new
              (mkStatistics None None) eq_refl) as (Henc & _ & Hmerge).
  split; [exact Henc|apply Hmerge].
Defined.

(** C10.  The string DecodePlainValue returns success for every input
    buffer, the empty one included; the value it produces points at the
    first byte of the buffer, has the length of the buffer, and refers to
    exactly the bytes of the buffer. *)
Theorem C10_string_decode_is_a_view :
  ∀ (m : StringStats.memory) (buffer : N) (slot : StringStats.StringValue),
    let r := StringStats.DecodePlainValue m buffer slot in
    r.1 = true
    ∧ StringStats.ptr r.2 = (buffer, 0%nat)
    ∧ StringStats.len r.2 = length (m !!! buffer)
    ∧ StringStats.bytes_of m r.2 = m !!! buffer.
Proof.
  intros m buffer slot r. subst r. simpl. repeat split.
  rewrite MaterializeFacts.bytes_of_owned. by rewrite take_ge.
Qed.

Example string_decode_empty :
  StringStats.DecodePlainValue (<[20%N := []]> ∅) 20 Samples.apple
  = (true, StringStats.mkStringValue (20%N, 0%nat) 0).
Proof. reflexivity. Qed.

(** * Further properties of the accumulator *)

Module ExtentFacts.
Import Generic Extent.

Section Facts.
Context {T : Type} `{Less T}.

(** [<] of a strict order is asymmetric. *)
Lemma less_asym `{!LessStrict T} (a b : T) :
  less a b = true → less b a = false.
Proof.
  intros Hab. destruct (less b a) eqn:Hba; [|done].
  pose proof (less_trans a b a Hab Hba) as Haa.
  by rewrite less_irrefl in Haa.
Qed.

(** One round of consequences of the comparisons at hand. *)
Ltac less_step :=
  match goal with
  | H1 : less ?a ?b = true, H2 : less ?b ?c = true |- _ =>
      lazymatch goal with
      | _ : less a c = true |- _ => fail
      | _ => pose proof (less_trans a b c H1 H2)
      end
  | H1 : less ?a ?b = false, H2 : less ?b ?c = false |- _ =>
      lazymatch goal with
      | _ : less a c = false |- _ => fail
      | _ => pose proof (less_negtrans a b c H1 H2)
      end
  end.

Ltac irrefl_all :=
  repeat match goal with
         | x : T |- _ =>
             lazymatch goal with
             | _ : less x x = false |- _ => fail
             | _ => pose proof (less_irrefl x)
             end
         end.

Ltac less_solve :=
  irrefl_all;
  try match goal with
      | |- less ?a ?b = false => destruct (less a b) eqn:?; [|reflexivity]
      end;
  repeat less_step; congruence.

Lemma Update_covers `{!LessWeak T} (s : ColumnStats T) (v x : T) :
  x = v ∨ covers s x → covers (Update s v) x.
Proof.
  unfold covers, less_eq. rewrite GenericFacts.Update_has_values.
  intros Hx. split; [done|]. unfold Update, std_min, std_max.
  destruct s as [hv lo hi sz]. simpl in *.
  destruct hv; simpl.
  - destruct Hx as [->|(_ & Hlo & Hhi)];
      destruct (less v lo) eqn:?, (less hi v) eqn:?; split; less_solve.
  - destruct Hx as [->|(? & _)]; [|congruence].
    split; apply less_irrefl.
Qed.

Lemma Merge_covers `{!LessWeak T} (s cs : ColumnStats T) (x : T) :
  covers s x ∨ covers cs x → covers (Merge s cs) x.
Proof.
  unfold covers, less_eq. rewrite GenericFacts.Merge_has_values.
  unfold Merge, std_min, std_max.
  destruct s as [hv lo hi sz], cs as [hv' lo' hi' sz']. simpl.
  destruct hv', hv; simpl; intros [(? & Hlo & Hhi)|(? & Hlo & Hhi)];
    try congruence; try done;
    (split; [done|]);
    destruct (less lo' lo) eqn:?, (less hi hi') eqn:?; split; less_solve.
Qed.

(** A value inside the reported range changes nothing. *)
Lemma Update_in_range (s : ColumnStats T) (v : T) :
  covers s v → Update s v = s.
Proof.
  unfold covers, less_eq, Update, std_min, std_max.
  destruct s as [hv lo hi sz]. simpl. by intros (-> & -> & ->).
Qed.

Lemma Merge_in_range (s cs : ColumnStats T) :
  has_values_ cs = true →
  covers s (min_value_ cs) → covers s (max_value_ cs) → Merge s cs = s.
Proof.
  unfold covers, less_eq, Merge, std_min, std_max.
  destruct s as [hv lo hi sz]. simpl.
  by intros -> (-> & -> & _) (_ & _ & ->).
Qed.

Lemma Update_idem `{!LessStrict T} (s : ColumnStats T) (v : T) :
  Update (Update s v) v = Update s v.
Proof.
  apply Update_in_range. unfold covers, less_eq.
  rewrite GenericFacts.Update_has_values. split; [done|].
  unfold Update, std_min, std_max. destruct s as [hv lo hi sz]. simpl.
  destruct hv; simpl; [|split; apply less_irrefl].
  destruct (less v lo) eqn:?, (less hi v) eqn:?;
    split; first [apply less_irrefl | done].
Qed.

Lemma Merge_idem `{!LessStrict T} (s cs : ColumnStats T) :
  Merge (Merge s cs) cs = Merge s cs.
Proof.
  destruct s as [hv lo hi sz], cs as [hv' lo' hi' sz'].
  unfold Merge, std_min, std_max. simpl.
  destruct hv'; simpl; [|done]. destruct hv; simpl.
  - destruct (less lo' lo) eqn:E1, (less hi hi') eqn:E2; simpl;
      by rewrite ?less_irrefl, ?E1, ?E2.
  - by rewrite !less_irrefl.
Qed.

Lemma Merge_self `{!LessStrict T} (s : ColumnStats T) : Merge s s = s.
Proof.
  destruct s as [hv lo hi sz]. unfold Merge, std_min, std_max. simpl.
  destruct hv; simpl; [|done]. by rewrite !less_irrefl.
Qed.

Lemma std_min_comm `{!LessWeak T} (a b : T) :
  equiv_less (std_min a b) (std_min b a).
Proof.
  unfold equiv_less, std_min.
  destruct (less b a) eqn:?, (less a b) eqn:?; split; less_solve.
Qed.

Lemma std_max_comm `{!LessWeak T} (a b : T) :
  equiv_less (std_max a b) (std_max b a).
Proof.
  unfold equiv_less, std_max.
  destruct (less b a) eqn:?, (less a b) eqn:?; split; less_solve.
Qed.

Lemma std_min_assoc `{!LessWeak T} (a b c : T) :
  equiv_less (std_min (std_min a b) c) (std_min a (std_min b c)).
Proof.
  unfold equiv_less, std_min.
  destruct (less b a) eqn:?, (less c b) eqn:?, (less c a) eqn:?;
    rewrite ?Heqb, ?Heqb0, ?Heqb1; split; less_solve.
Qed.

Lemma std_max_assoc `{!LessWeak T} (a b c : T) :
  equiv_less (std_max (std_max a b) c) (std_max a (std_max b c)).
Proof.
  unfold equiv_less, std_max.
  destruct (less a b) eqn:?, (less b c) eqn:?, (less a c) eqn:?;
    rewrite ?Heqb, ?Heqb0, ?Heqb1; split; less_solve.
Qed.

Lemma equiv_less_refl `{!LessStrict T} (a : T) : equiv_less a a.
Proof. split; apply less_irrefl. Qed.

Lemma Merge_comm `{!LessWeak T} (s cs : ColumnStats T) :
  has_values_ (Merge s cs) = has_values_ (Merge cs s)
  ∧ (has_values_ (Merge s cs) = true →
     equiv_less (min_value_ (Merge s cs)) (min_value_ (Merge cs s))
     ∧ equiv_less (max_value_ (Merge s cs)) (max_value_ (Merge cs s))).
Proof.
  rewrite !GenericFacts.Merge_has_values. split; [apply orb_comm|].
  destruct s as [hv lo hi sz], cs as [hv' lo' hi' sz'].
  unfold Merge. simpl. destruct hv, hv'; simpl; try done; intros _;
    first [ split; apply equiv_less_refl
          | split; [apply std_min_comm|apply std_max_comm] ].
Qed.

Lemma Merge_assoc `{!LessWeak T} (a b c : ColumnStats T) :
  let l := Merge (Merge a b) c in
  let r := Merge a (Merge b c) in
  has_values_ l = has_values_ r
  ∧ plain_encoded_value_size_ l = plain_encoded_value_size_ r
  ∧ (has_values_ l = false → l = r)
  ∧ (has_values_ l = true →
     equiv_less (min_value_ l) (min_value_ r)
     ∧ equiv_less (max_value_ l) (max_value_ r)).
Proof.
  intros l r. subst l r.
  destruct a as [hv lo hi sz], b as [hv' lo' hi' sz'], c as [hv'' lo'' hi'' sz''].
  unfold Merge. simpl.
  destruct hv, hv', hv''; simpl; repeat split; try done;
    first [ apply equiv_less_refl | apply std_min_assoc | apply std_max_assoc ].
Qed.

(** What no sequence of Updates and Merges undoes. *)
Lemma evolves_keeps `{!LessWeak T} (s s' : ColumnStats T) :
  evolves s s' →
  plain_encoded_value_size_ s' = plain_encoded_value_size_ s
  ∧ (has_values_ s = true → has_values_ s' = true)
  ∧ (∀ x, covers s x → covers s' x).
Proof.
  induction 1 as [|s' v _ (IHsz & IHhv & IHc)|s' cs _ (IHsz & IHhv & IHc)].
  - done.
  - split; [|split].
    + rewrite <- IHsz. unfold Update. by destruct (has_values_ s').
    + intros _. apply GenericFacts.Update_has_values.
    + intros x Hx. apply Update_covers. right. by apply IHc.
  - split; [|split].
    + rewrite <- IHsz. unfold Merge.
      by destruct (has_values_ cs), (has_values_ s').
    + intros Hs. by rewrite GenericFacts.Merge_has_values, IHhv.
    + intros x Hx. apply Merge_covers. left. by apply IHc.
Qed.

End Facts.
End ExtentFacts.

Module ThriftFacts.
Import Generic.

Section Facts.
Context {T : Type} `{ParquetPlainEncoder T}.

(** An encoder that writes in place leaves a string of the size asked
    for. *)
Lemma EncodePlainValue_length (v : T) (n : Z) (out bs : list byte) :
  in_place → Codec.EncodePlainValue v n out = Done bs →
  length bs = Z.to_nat n.
Proof.
  intros Hin. unfold Codec.EncodePlainValue.
  pose proof (Hin v n (resize (Z.to_nat n) out)
                (CodecFacts.length_resize _ _)) as Hlen.
  destruct (Encode v n _) as [w buf]. simpl in Hlen.
  destruct (Z.eqb_spec n w) as [->|]; [|done]. intros [= <-].
  by rewrite Hlen, CodecFacts.length_resize.
Qed.

(** EncodePlainValue completes exactly when the encoder reports the size
    it was asked for. *)
Lemma EncodePlainValue_done (v : T) (n : Z) (out : list byte) :
  (∃ bs, Codec.EncodePlainValue v n out = Done bs)
  ↔ (Encode v n (resize (Z.to_nat n) out)).1 = n.
Proof.
  unfold Codec.EncodePlainValue. destruct (Encode v n _) as [w buf]. simpl.
  destruct (Z.eqb_spec n w) as [->|Hne]; simpl.
  - split; [done|]. intros _. by eexists.
  - split; [by intros [bs ?]|congruence].
Qed.

(** The Statistics that EncodeToThrift leaves: both fields set, whatever
    they held before. *)
Lemma EncodeToThrift_done (s : ColumnStats T) (out st : Statistics) :
  Codec.EncodeToThrift Codec.EncodePlainValue Codec.BytesNeeded s out
    = Done st →
  has_values_ s = true
  ∧ ∃ lo hi,
      st = mkStatistics (Some lo) (Some hi)
      ∧ Codec.EncodePlainValue (min_value_ s)
          (Codec.BytesNeeded s (min_value_ s)) [] = Done lo
      ∧ Codec.EncodePlainValue (max_value_ s)
          (Codec.BytesNeeded s (max_value_ s)) [] = Done hi.
Proof.
  unfold Codec.EncodeToThrift. destruct (has_values_ s); [|done].
  rewrite CodecFacts.DCHECK_true.
  destruct (Codec.EncodePlainValue (min_value_ s) _ _) as [lo|] eqn:Hlo;
    [|done].
  destruct (Codec.EncodePlainValue (max_value_ s) _ _) as [hi|] eqn:Hhi;
    [|done].
  intros [= <-]. split; [done|]. by exists lo, hi.
Qed.

End Facts.
End ThriftFacts.

Module StringExtraFacts.
Import StringStats StringOrder MaterializeFacts.

Lemma bytes_of_ext (m m' : memory) (v : StringValue) :
  m' !!! (ptr v).1 = m !!! (ptr v).1 → bytes_of m' v = bytes_of m v.
Proof. unfold bytes_of, load. by intros ->. Qed.

(** The comparison reads the bytes and nothing else. *)
Lemma string_lt_ext (m m' : memory) (a b a' b' : StringValue) :
  bytes_of m' a' = bytes_of m a → bytes_of m' b' = bytes_of m b →
  string_lt m' a' b' = string_lt m a b.
Proof. unfold string_lt, Compare. by intros -> ->. Qed.

(** Materializing writes to the two owned blocks only, and leaves the
    members other than the values and the buffer lengths alone. *)
Lemma Materialize_frame (m : memory) (s : ColumnStats) :
  let r := MaterializeStringValuesToInternalBuffers m s in
  (∀ b : N, b ≠ buffer_ (min_buffer_ s) → b ≠ buffer_ (max_buffer_ s) →
     r.1 !! b = m !! b)
  ∧ has_values_ r.2 = has_values_ s
  ∧ plain_encoded_value_size_ r.2 = plain_encoded_value_size_ s
  ∧ buffer_ (min_buffer_ r.2) = buffer_ (min_buffer_ s)
  ∧ buffer_ (max_buffer_ r.2) = buffer_ (max_buffer_ s)
  ∧ len (min_value_ r.2) = len (min_value_ s)
  ∧ len (max_value_ r.2) = len (max_value_ s).
Proof.
  unfold MaterializeStringValuesToInternalBuffers, CopyToBuffer, IsEmpty.
  destruct s as [hv lo hi sz [mb ml] [xb xl]]. simpl.
  destruct (ml =? 0)%nat; simpl; destruct (xl =? 0)%nat; simpl;
    (split; [|done]); intros b Hm Hx; by rewrite ?lookup_insert_ne.
Qed.

Lemma Materialize_borrowed (m : memory) (s : ColumnStats) (v : StringValue) :
  borrowed s v →
  bytes_of (MaterializeStringValuesToInternalBuffers m s).1 v = bytes_of m v.
Proof.
  intros [Hm Hx]. apply bytes_of_ext.
  destruct (Materialize_frame m s) as (Hframe & _).
  unfold lookup_total, map_lookup_total. by rewrite Hframe.
Qed.

(** What a materialized accumulator reports does not depend on memory it
    does not own. *)
Lemma Materialize_reported (m m' : memory) (s : ColumnStats) :
  wf s →
  let r := MaterializeStringValuesToInternalBuffers m s in
  m' !!! buffer_ (min_buffer_ s) = r.1 !!! buffer_ (min_buffer_ s) →
  m' !!! buffer_ (max_buffer_ s) = r.1 !!! buffer_ (max_buffer_ s) →
  bytes_of m' (min_value_ r.2) = bytes_of m (min_value_ s)
  ∧ bytes_of m' (max_value_ r.2) = bytes_of m (max_value_ s).
Proof.
  intros Hwf r Hmb Hxb.
  destruct (LifetimeFacts.Materialize_contents m s Hwf) as [Hlo Hhi].
  destruct (LifetimeFacts.Materialize_views m s Hwf)
    as (Hbm & Hbx & Hvlo & Hvhi).
  fold r in Hlo, Hhi, Hbm, Hbx, Hvlo, Hvhi. rewrite Hvlo, Hvhi.
  rewrite !bytes_of_owned, Hmb, Hxb, <- Hlo, <- Hhi.
  unfold contents. by rewrite Hbm, Hbx.
Qed.

(** Update on two accumulators that report the same bytes, with values
    that hold the same bytes, gives accumulators that report the same
    bytes. *)
Lemma Update_same_report (m m' : memory) (s s' : ColumnStats)
    (v v' : StringValue) :
  has_values_ s' = has_values_ s →
  bytes_of m' (min_value_ s') = bytes_of m (min_value_ s) →
  bytes_of m' (max_value_ s') = bytes_of m (max_value_ s) →
  bytes_of m' v' = bytes_of m v →
  has_values_ (Update m' s' v') = has_values_ (Update m s v)
  ∧ bytes_of m' (min_value_ (Update m' s' v'))
    = bytes_of m (min_value_ (Update m s v))
  ∧ bytes_of m' (max_value_ (Update m' s' v'))
    = bytes_of m (max_value_ (Update m s v)).
Proof.
  intros Hhv Hlo Hhi Hv. unfold Update. rewrite Hhv, !string_gt_lt.
  rewrite (string_lt_ext m m' v (min_value_ s) v' (min_value_ s')) by done.
  destruct (has_values_ s) eqn:Hs; simpl; [|done].
  destruct (string_lt m v (min_value_ s)); simpl;
    rewrite (string_lt_ext m m' (max_value_ s) v (max_value_ s') v') by done;
    destruct (string_lt m (max_value_ s) v); simpl; by rewrite ?Hhv.
Qed.

Lemma UpdateAll_same_report (m m' : memory) (l : list StringValue) :
  Forall (λ v, bytes_of m' v = bytes_of m v) l →
  ∀ s s' : ColumnStats,
    has_values_ s' = has_values_ s →
    bytes_of m' (min_value_ s') = bytes_of m (min_value_ s) →
    bytes_of m' (max_value_ s') = bytes_of m (max_value_ s) →
    has_values_ (fold_left (Update m') l s')
      = has_values_ (fold_left (Update m) l s)
    ∧ bytes_of m' (min_value_ (fold_left (Update m') l s'))
      = bytes_of m (min_value_ (fold_left (Update m) l s))
    ∧ bytes_of m' (max_value_ (fold_left (Update m') l s'))
      = bytes_of m (max_value_ (fold_left (Update m) l s)).
Proof.
  induction 1 as [|v l Hv _ IH]; intros s s' Hhv Hlo Hhi; [done|]. simpl.
  destruct (Update_same_report m m' s s' v v Hhv Hlo Hhi Hv) as (? & ? & ?).
  by apply IH.
Qed.

(** Update keeps the blocks of the two buffers. *)
Lemma borrowed_Update (m : memory) (s : ColumnStats) (v w : StringValue) :
  borrowed (Update m s v) w ↔ borrowed s w.
Proof.
  unfold borrowed, Update. destruct s as [hv lo hi sz [mb ml] [xb xl]].
  simpl. destruct hv; simpl; [|done].
  destruct (string_lt m v lo); simpl; by destruct (string_gt m v _).
Qed.

Lemma wf_UpdateAll (m : memory) (l : list StringValue) :
  ∀ s : ColumnStats,
    wf s → Forall (borrowed s) l → wf (fold_left (Update m) l s).
Proof.
  induction l as [|v l IH]; intros s Hwf Hl; [done|]. simpl.
  apply Forall_cons in Hl as [Hv Hl].
  apply IH; [by apply StringFacts.wf_Update|].
  eapply Forall_impl; [exact Hl|]. intros w Hw. by apply borrowed_Update.
Qed.

(** The string Update and Merge leave an accumulator alone when the value
    is not below its min and not above its max. *)
Lemma string_Update_in_range (m : memory) (s : ColumnStats) (v : StringValue) :
  has_values_ s = true →
  string_lt m v (min_value_ s) = false →
  string_lt m (max_value_ s) v = false →
  Update m s v = s.
Proof.
  unfold Update. rewrite string_gt_lt. by intros -> -> ->.
Qed.

Lemma string_Update_idem (m : memory) (s : ColumnStats) (v : StringValue) :
  Update m (Update m s v) v = Update m s v.
Proof.
  pose proof (StringMergeFacts.lt_irrefl m v) as Hirr.
  destruct s as [hv lo hi sz mbuf xbuf].
  unfold Update, assign_min, assign_max, set_has_values. simpl.
  destruct hv; simpl; rewrite ?string_gt_lt;
    [|by repeat (progress (rewrite ?string_gt_lt, ?Hirr; simpl))].
  destruct (string_lt m v lo) eqn:E1; simpl; rewrite ?string_gt_lt;
    destruct (string_lt m hi v) eqn:E2; simpl;
    by repeat (progress (rewrite ?string_gt_lt, ?Hirr, ?E1, ?E2; simpl)).
Qed.

Lemma string_EncodeToThrift_done `{ParquetPlainEncoder StringValue}
    (m : memory) (s : ColumnStats) (out : Statistics) :
  has_values_ s = true →
  EncodeToThrift m s out
    = Done (mkStatistics (Some (bytes_of m (min_value_ s)))
                         (Some (bytes_of m (max_value_ s)))).
Proof.
  intros Hs. unfold EncodeToThrift, Codec.EncodeToThrift. simpl.
  by rewrite Hs.
Qed.

End StringExtraFacts.

(** X1.  For a strict weak order, after Update(v) the accumulator covers
    [v] (min_value <= v <= max_value) and still covers every value it
    covered before; the string Update does the same in the byte order. *)
Theorem X1_update_keeps_coverage :
  (∀ (T : Type) (L : Less T) (_ : LessWeak T)
     (s : Generic.ColumnStats T) (v x : T),
     x = v ∨ Extent.covers s x → Extent.covers (Generic.Update s v) x)
  ∧ (∀ (m : StringStats.memory) (s : StringStats.ColumnStats)
       (v x : StringStats.StringValue),
     x = v ∨ Extent.covers (H := StringStats.string_less m)
               (StringStats.base s) x →
     Extent.covers (H := StringStats.string_less m)
       (StringStats.base (StringStats.Update m s v)) x).
Proof.
  split.
  - intros T L HL s v x. by apply ExtentFacts.Update_covers.
  - intros m s v x Hx. rewrite StringOrder.base_Update.
    by apply (@ExtentFacts.Update_covers _ (StringStats.string_less m)
                (StringOrder.string_weak m)).
Qed.

Lemma X1_witness :
  let s := Generic.UpdateAll Samples.ints_new [5; 1] in
  Extent.covers s 3 ∧ Extent.covers (Generic.Update s 9) 3
  ∧ Extent.covers (Generic.Update s 9) 9.
Proof.
  intros s.
  assert (Extent.covers s 3) as Hc by (by repeat split).
  split; [exact Hc|]. split.
  - exact (proj1 X1_update_keeps_coverage Z PlainModel.Z_less
             PlainModelFacts.Z_weak s 9 3 (or_intror Hc)).
  - exact (proj1 X1_update_keeps_coverage Z PlainModel.Z_less
             PlainModelFacts.Z_weak s 9 9 (or_introl eq_refl)).
Defined.

(** X2.  For a strict weak order, the result of Merge covers every value
    that the receiving accumulator or the merged one covered; the string
    Merge does the same in the byte order. *)
Theorem X2_merge_keeps_coverage :
  (∀ (T : Type) (L : Less T) (_ : LessWeak T)
     (s cs : Generic.ColumnStats T) (x : T),
     Extent.covers s x ∨ Extent.covers cs x →
     Extent.covers (Generic.Merge s cs) x)
  ∧ (∀ (m : StringStats.memory) (s cs : StringStats.ColumnStats)
       (x : StringStats.StringValue),
     Extent.covers (H := StringStats.string_less m) (StringStats.base s) x
     ∨ Extent.covers (H := StringStats.string_less m) (StringStats.base cs) x →
     Extent.covers (H := StringStats.string_less m)
       (StringStats.base (StringStats.Merge m s cs)) x).
Proof.
  split.
  - intros T L HL s cs x. by apply ExtentFacts.Merge_covers.
  - intros m s cs x Hx. rewrite StringOrder.base_Merge.
    by apply (@ExtentFacts.Merge_covers _ (StringStats.string_less m)
                (StringOrder.string_weak m)).
Qed.

Lemma X2_witness :
  let s := Generic.UpdateAll Samples.ints_new [5; 1; 9; 3] in
  let cs := Generic.UpdateAll Samples.ints_new [-2; 9] in
  Extent.covers cs 0 ∧ ¬ Extent.covers s 0
  ∧ Extent.covers (Generic.Merge s cs) 0.
Proof.
  intros s cs.
  assert (Extent.covers cs 0) as Hc by (by repeat split).
  split; [exact Hc|]. split; [by intros (_ & ? & _)|].
  exact (proj1 X2_merge_keeps_coverage Z PlainModel.Z_less
           PlainModelFacts.Z_weak s cs 0 (or_intror Hc)).
Defined.

(** X3.  Whatever Updates and Merges follow, an accumulator keeps its
    plain_encoded_value_size_, never goes back from having values to
    having none, and (for a strict weak order) keeps covering every value
    it covered. *)
Theorem X3_what_updates_and_merges_keep :
  ∀ (T : Type) (L : Less T) (_ : LessWeak T) (s s' : Generic.ColumnStats T),
    Extent.evolves s s' →
    Generic.plain_encoded_value_size_ s' = Generic.plain_encoded_value_size_ s
    ∧ (Generic.has_values_ s = true → Generic.has_values_ s' = true)
    ∧ (∀ x, Extent.covers s x → Extent.covers s' x).
Proof. intros T L HL s s'. apply ExtentFacts.evolves_keeps. Qed.

Lemma X3_witness :
  let s := Generic.UpdateAll Samples.ints_new [5; 1] in
  let s' := Generic.Update
              (Generic.Merge s (Generic.UpdateAll Samples.ints_new [-2; 9]))
              7 in
  Extent.evolves s s' ∧ (Extent.covers s 3 → Extent.covers s' 3).
Proof.
  intros s s'.
  assert (Extent.evolves s s') as He
    by (apply Extent.evolves_update, Extent.evolves_merge, Extent.evolves_refl).
  split; [exact He|].
  exact (proj2 (proj2 (X3_what_updates_and_merges_keep Z PlainModel.Z_less
                         PlainModelFacts.Z_weak s s' He)) 3).
Defined.

(** X4.  For a strict order, repeating an Update with the same value or a
    Merge with the same accumulator changes nothing, and merging an
    accumulator into itself changes nothing; repeating a string Update
    changes neither the values nor the buffers. *)
Theorem X4_repeating_changes_nothing :
  (∀ (T : Type) (L : Less T) (_ : LessStrict T)
     (s cs : Generic.ColumnStats T) (v : T),
     Generic.Update (Generic.Update s v) v = Generic.Update s v
     ∧ Generic.Merge (Generic.Merge s cs) cs = Generic.Merge s cs
     ∧ Generic.Merge s s = s)
  ∧ (∀ (m : StringStats.memory) (s : StringStats.ColumnStats)
       (v : StringStats.StringValue),
     StringStats.Update m (StringStats.Update m s v) v
       = StringStats.Update m s v).
Proof.
  split.
  - intros T L HL s cs v. split; [|split].
    + apply ExtentFacts.Update_idem.
    + apply ExtentFacts.Merge_idem.
    + apply ExtentFacts.Merge_self.
  - apply StringExtraFacts.string_Update_idem.
Qed.

Lemma X4_witness :
  let s := Generic.UpdateAll Samples.ints_new [5; 1] in
  Generic.Update (Generic.Update s 9) 9 = Generic.Update s 9.
Proof.
  intros s.
  exact (proj1 (proj1 X4_repeating_changes_nothing Z PlainModel.Z_less
                  PlainModelFacts.Z_strict s s 9)).
Defined.

(** X5.  For a strict weak order, Merge is commutative and associative on
    has_values and, up to incomparability, on min_value and max_value; for
    a total order the extrema are equal, and the two associations give the
    same accumulator. *)
Theorem X5_merge_commutes_and_associates :
  ∀ (T : Type) (L : Less T) (_ : LessWeak T) (a b c : Generic.ColumnStats T),
    (Generic.has_values_ (Generic.Merge a b)
       = Generic.has_values_ (Generic.Merge b a)
     ∧ (Generic.has_values_ (Generic.Merge a b) = true →
        equiv_less (Generic.min_value_ (Generic.Merge a b))
                   (Generic.min_value_ (Generic.Merge b a))
        ∧ equiv_less (Generic.max_value_ (Generic.Merge a b))
                     (Generic.max_value_ (Generic.Merge b a))
        ∧ (LessTotal T →
           Generic.min_value_ (Generic.Merge a b)
             = Generic.min_value_ (Generic.Merge b a)
           ∧ Generic.max_value_ (Generic.Merge a b)
             = Generic.max_value_ (Generic.Merge b a))))
    ∧ (let l := Generic.Merge (Generic.Merge a b) c in
       let r := Generic.Merge a (Generic.Merge b c) in
       Generic.has_values_ l = Generic.has_values_ r
       ∧ (Generic.has_values_ l = true →
          equiv_less (Generic.min_value_ l) (Generic.min_value_ r)
          ∧ equiv_less (Generic.max_value_ l) (Generic.max_value_ r))
       ∧ (LessTotal T → l = r)).
Proof.
  intros T L HL a b c. split.
  - destruct (ExtentFacts.Merge_comm a b) as [Hv Hx]. split; [done|].
    intros Hab. destruct (Hx Hab) as [Hmin Hmax].
    split; [exact Hmin|]. split; [exact Hmax|]. intros Htot.
    destruct Hmin, Hmax. split; by apply Htot.
  - intros l r.
    destruct (ExtentFacts.Merge_assoc a b c) as (Hv & Hsz & Hempty & Hx).
    fold l r in Hv, Hsz, Hempty, Hx.
    split; [done|]. split; [done|]. intros Htot.
    destruct (Generic.has_values_ l) eqn:Hl; [|by apply Hempty].
    destruct (Hx eq_refl) as [[? ?] [? ?]].
    destruct l as [lv lmin lmax lsz], r as [rv rmin rmax rsz].
    simpl in *. subst. f_equal; by apply Htot.
Qed.

Lemma X5_witness :
  let a := Generic.UpdateAll Samples.ints_new [5; 1] in
  let b := Generic.UpdateAll Samples.ints_new [9; 3] in
  let c := Generic.UpdateAll Samples.ints_new [-2; 9] in
  Generic.Merge (Generic.Merge a b) c = Generic.Merge a (Generic.Merge b c).
Proof.
  intros a b c.
  exact (proj2 (proj2 (proj2 (X5_merge_commutes_and_associates Z
           PlainModel.Z_less PlainModelFacts.Z_weak a b c)))
           PlainModelFacts.Z_total).
Defined.

Module SizeFacts.
Import Generic Extent.

Lemma evolves_size {T : Type} `{Less T} (s s' : ColumnStats T) :
  evolves s s' →
  plain_encoded_value_size_ s' = plain_encoded_value_size_ s.
Proof.
  induction 1 as [|s' v _ IH|s' cs _ IH]; [done|..]; rewrite <- IH.
  - unfold Update. by destruct (has_values_ s').
  - unfold Merge. by destruct (has_values_ cs), (has_values_ s').
Qed.

(** The plain integer encoder writes in place. *)
Lemma int_in_place (w : nat) : in_place (H := PlainModel.int_encoder w).
Proof.
  intros v n buffer Hlen Hn. simpl in *. subst n.
  rewrite Nat2Z.id in Hlen.
  rewrite length_app, length_le_split, length_drop. lia.
Qed.

(** On the integers std::min and std::max are [Z.min] and [Z.max]; on the
    booleans they are conjunction and disjunction. *)
Lemma std_min_Z (a b : Z) : std_min a b = Z.min a b.
Proof.
  unfold std_min, less, PlainModel.Z_less.
  destruct (Z.ltb_spec b a); lia.
Qed.

Lemma std_max_Z (a b : Z) : std_max a b = Z.max a b.
Proof.
  unfold std_max, less, PlainModel.Z_less.
  destruct (Z.ltb_spec a b); lia.
Qed.

Lemma std_min_bool (a b : bool) : std_min a b = a && b.
Proof. by destruct a, b. Qed.

Lemma std_max_bool (a b : bool) : std_max a b = a || b.
Proof. by destruct a, b. Qed.

Lemma UpdateAll_fold {T : Type} `{Less T} (lo hi : T → T → T)
    (l : list T) :
  (∀ a b, std_min a b = lo a b) → (∀ a b, std_max a b = hi a b) →
  ∀ s : ColumnStats T,
    has_values_ s = true →
    UpdateAll s l = mkStats true (fold_left lo l (min_value_ s))
                            (fold_left hi l (max_value_ s))
                            (plain_encoded_value_size_ s).
Proof.
  intros Hlo Hhi. induction l as [|v l IH]; intros s Hs.
  - destruct s. simpl in *. by subst.
  - change (UpdateAll s (v :: l)) with (UpdateAll (Update s v) l).
    rewrite IH by apply GenericFacts.Update_has_values.
    rewrite GenericFacts.Update_later by done. simpl.
    by rewrite Hlo, Hhi.
Qed.

End SizeFacts.

(** X6.  BytesNeeded() of an accumulator whose plain_encoded_value_size_ is
    not negative is twice that size, whatever its values are and whatever
    Updates and Merges it went through; with a negative size it is the sum
    of the encoder's ByteSize of min_value_ and max_value_. *)
Theorem X6_bytes_needed :
  ∀ (T : Type) (E : ParquetPlainEncoder T) (L : Less T)
    (s s' : Generic.ColumnStats T),
    Extent.evolves s s' →
    (0 ≤ Generic.plain_encoded_value_size_ s →
     Codec.BytesNeededTotal s' = 2 * Generic.plain_encoded_value_size_ s)
    ∧ (Generic.plain_encoded_value_size_ s < 0 →
       Codec.BytesNeededTotal s'
         = ByteSize (Generic.min_value_ s') + ByteSize (Generic.max_value_ s')).
Proof.
  intros T E L s s' He. apply SizeFacts.evolves_size in He.
  unfold Codec.BytesNeededTotal, Codec.BytesNeeded. rewrite He.
  split; intros Hsz.
  - assert ((Generic.plain_encoded_value_size_ s <? 0) = false) as ->
      by (apply Z.ltb_ge; lia). lia.
  - by assert ((Generic.plain_encoded_value_size_ s <? 0) = true) as ->
      by (apply Z.ltb_lt; lia).
Qed.

Lemma X6_witness :
  let s := Generic.mkStats false 0 0 16 in
  let s' := Generic.Merge (Generic.UpdateAll s [5; 1])
              (Generic.UpdateAll Samples.ints_new [-2; 9]) in
  Extent.evolves s s' ∧ 0 ≤ Generic.plain_encoded_value_size_ s
  ∧ Codec.BytesNeededTotal (H := PlainModel.int32_encoder) s' = 32.
Proof.
  intros s s'.
  assert (Extent.evolves s s') as He
    by (apply Extent.evolves_merge; do 2 apply Extent.evolves_update;
        apply Extent.evolves_refl).
  assert (0 ≤ Generic.plain_encoded_value_size_ s) as Hsz by (simpl; lia).
  split; [exact He|]. split; [exact Hsz|].
  exact (proj1 (X6_bytes_needed Z PlainModel.int32_encoder PlainModel.Z_less
                  s s' He) Hsz).
Defined.

(** X7.  EncodeToThrift completes exactly when the accumulator has values
    and the encoder reports, for min_value_ and for max_value_, the size it
    was asked for.  When it completes with an encoder that writes in place
    and sizes that are not negative, both fields of the Statistics are set,
    the min string has BytesNeeded(min_value_) bytes, the max string has
    BytesNeeded(max_value_) bytes, and together they have BytesNeeded()
    bytes. *)
Theorem X7_encode_to_thrift_sizes :
  ∀ (T : Type) (E : ParquetPlainEncoder T) (s : Generic.ColumnStats T)
    (out : Statistics),
    let n1 := Codec.BytesNeeded s (Generic.min_value_ s) in
    let n2 := Codec.BytesNeeded s (Generic.max_value_ s) in
    let run := Codec.EncodeToThrift Codec.EncodePlainValue
                 Codec.BytesNeeded s out in
    ((∃ st, run = Done st)
     ↔ Generic.has_values_ s = true
       ∧ (Encode (Generic.min_value_ s) n1 (resize (Z.to_nat n1) [])).1 = n1
       ∧ (Encode (Generic.max_value_ s) n2 (resize (Z.to_nat n2) [])).1 = n2)
    ∧ (in_place → 0 ≤ n1 → 0 ≤ n2 →
       ∀ st, run = Done st →
       ∃ lo hi, st = mkStatistics (Some lo) (Some hi)
              ∧ Z.of_nat (length lo) = n1 ∧ Z.of_nat (length hi) = n2
              ∧ Z.of_nat (length lo + length hi) = Codec.BytesNeededTotal s).
Proof.
  intros T E s out n1 n2 run. split.
  - split.
    + intros [st Hst].
      destruct (ThriftFacts.EncodeToThrift_done s out st Hst)
        as (Hs & lo & hi & _ & Hlo & Hhi).
      split; [done|].
      split; apply ThriftFacts.EncodePlainValue_done; by eexists.
    + intros (Hs & [lo Hlo]%ThriftFacts.EncodePlainValue_done
                 & [hi Hhi]%ThriftFacts.EncodePlainValue_done).
      eexists. by apply CodecFacts.EncodeToThrift_values.
  - intros Hin Hn1 Hn2 st Hst.
    destruct (ThriftFacts.EncodeToThrift_done s out st Hst)
      as (Hs & lo & hi & -> & Hlo & Hhi).
    apply (ThriftFacts.EncodePlainValue_length _ _ _ _ Hin) in Hlo, Hhi.
    exists lo, hi. split; [done|].
    rewrite Nat2Z.inj_add, Hlo, Hhi, !Z2Nat.id by done.
    by unfold Codec.BytesNeededTotal.
Qed.

Lemma X7_witness :
  let s := Generic.mkStats true (-2) 9 (-1) in
  in_place (H := PlainModel.int32_encoder)
  ∧ ∃ lo hi,
      Codec.EncodeToThrift
        (Codec.EncodePlainValue (H := PlainModel.int32_encoder))
        (Codec.BytesNeeded (H := PlainModel.int32_encoder)) s
        (mkStatistics None None) = Done (mkStatistics (Some lo) (Some hi))
      ∧ Z.of_nat (length lo + length hi) = 8.
Proof.
  intros s.
  assert (in_place (H := PlainModel.int32_encoder)) as Hin
    by apply SizeFacts.int_in_place.
  split; [exact Hin|].
  destruct (proj2 (X7_encode_to_thrift_sizes Z PlainModel.int32_encoder s
                     (mkStatistics None None)) Hin ltac:(by vm_compute)
              ltac:(by vm_compute) _ eq_refl)
    as (lo & hi & Hst & _ & _ & Hlen).
  exists lo, hi. split; [|exact Hlen].
  by rewrite <- Hst.
Defined.

(** X8.  What EncodeToThrift writes, DecodePlainValue reads back: for an
    accumulator with values whose min_value_ and max_value_ the plain
    encoder round-trips at their computed sizes, EncodeToThrift completes
    and the generic DecodePlainValue of the min and max strings succeeds
    with min_value_ and max_value_.  The timestamp DecodePlainValue of the
    same strings yields the same values and succeeds exactly for the one
    that is a valid date. *)
Theorem X8_thrift_roundtrip :
  ∀ (T : Type) (E : ParquetPlainEncoder T) (s : Generic.ColumnStats T)
    (out : Statistics),
    Generic.has_values_ s = true →
    plain_roundtrip (Generic.min_value_ s)
      (Codec.BytesNeeded s (Generic.min_value_ s)) →
    plain_roundtrip (Generic.max_value_ s)
      (Codec.BytesNeeded s (Generic.max_value_ s)) →
    ∃ lo hi,
      Codec.EncodeToThrift Codec.EncodePlainValue Codec.BytesNeeded s out
        = Done (mkStatistics (Some lo) (Some hi))
      ∧ ∀ slot : T,
          Codec.DecodePlainValue lo slot = (true, Generic.min_value_ s)
          ∧ Codec.DecodePlainValue hi slot = (true, Generic.max_value_ s)
          ∧ ∀ IsValidDate : T → bool,
              TimestampStats.DecodePlainValue IsValidDate lo slot
                = (IsValidDate (Generic.min_value_ s), Generic.min_value_ s)
              ∧ TimestampStats.DecodePlainValue IsValidDate hi slot
                = (IsValidDate (Generic.max_value_ s), Generic.max_value_ s).
Proof.
  intros T E s out Hs Hmin Hmax.
  destruct (Hmin (resize _ []) (CodecFacts.length_resize _ _))
    as (lo & Helo & Hdlo).
  destruct (Hmax (resize _ []) (CodecFacts.length_resize _ _))
    as (hi & Hehi & Hdhi).
  exists lo, hi. split.
  - apply CodecFacts.EncodeToThrift_values; [done|..];
      unfold Codec.EncodePlainValue;
      by rewrite ?Helo, ?Hehi, Z.eqb_refl.
  - intros slot.
    assert (Codec.DecodePlainValue lo slot = (true, Generic.min_value_ s))
      as Hlo.
    { unfold Codec.DecodePlainValue.
      destruct (Hdlo slot) as (rc & Hrc & ->).
      by apply Z.eqb_neq in Hrc as ->. }
    assert (Codec.DecodePlainValue hi slot = (true, Generic.max_value_ s))
      as Hhi.
    { unfold Codec.DecodePlainValue.
      destruct (Hdhi slot) as (rc & Hrc & ->).
      by apply Z.eqb_neq in Hrc as ->. }
    do 2 (split; [done|]). intros IsValidDate.
    by rewrite !CodecFacts.timestamp_decode_spec, Hlo, Hhi.
Qed.

Lemma X8_witness :
  let s := Generic.mkStats true (-2) 9 (-1) in
  (Generic.has_values_ s = true
   ∧ plain_roundtrip (H := PlainModel.int32_encoder) (-2)
       (Codec.BytesNeeded (H := PlainModel.int32_encoder) s (-2))
   ∧ plain_roundtrip (H := PlainModel.int32_encoder) 9
       (Codec.BytesNeeded (H := PlainModel.int32_encoder) s 9))
  ∧ ∃ lo hi,
      Codec.EncodeToThrift
        (Codec.EncodePlainValue (H := PlainModel.int32_encoder))
        (Codec.BytesNeeded (H := PlainModel.int32_encoder)) s
        (mkStatistics None None) = Done (mkStatistics (Some lo) (Some hi))
      ∧ Codec.DecodePlainValue (H := PlainModel.int32_encoder) lo 0
        = (true, -2)
      ∧ Codec.DecodePlainValue (H := PlainModel.int32_encoder) hi 0
        = (true, 9).
Proof.
  intros s.
  assert (plain_roundtrip (H := PlainModel.int32_encoder) (-2)
            (Codec.BytesNeeded (H := PlainModel.int32_encoder) s (-2)))
    as Hlo by (apply (PlainModelFacts.int_roundtrip 4 (-2)); simpl; lia).
  assert (plain_roundtrip (H := PlainModel.int32_encoder) 9
            (Codec.BytesNeeded (H := PlainModel.int32_encoder) s 9))
    as Hhi by (apply (PlainModelFacts.int_roundtrip 4 9); simpl; lia).
  split; [by repeat split|].
  destruct (X8_thrift_roundtrip Z PlainModel.int32_encoder s
              (mkStatistics None None) eq_refl Hlo Hhi)
    as (lo & hi & Henc & Hdec).
  exists lo, hi. split; [exact Henc|].
  destruct (Hdec 0) as (Hdlo & Hdhi & _). by split.
Defined.

Module BoolThriftFacts.
Import Generic.

Lemma bool_byte (b : bool) :
  bool_decide ((if b then Byte.x01 else Byte.x00) ≠ Byte.x00) = b.
Proof. by destruct b. Qed.

Lemma EncodeToThrift_bool (s : ColumnStats bool) (out : Statistics) :
  has_values_ s = true →
  BoolStats.EncodeToThrift s out
    = Done (mkStatistics
              (Some [if min_value_ s then Byte.x01 else Byte.x00])
              (Some [if max_value_ s then Byte.x01 else Byte.x00])).
Proof.
  intros Hs. unfold BoolStats.EncodeToThrift.
  by apply CodecFacts.EncodeToThrift_values.
Qed.

End BoolThriftFacts.

(** X9.  EncodeToThrift on a ColumnStats<bool> with values always
    completes: it writes one byte for min_value_ and one for max_value_,
    two bytes as BytesNeeded() says, and DecodePlainValue of each reads the
    value back.  A reachable accumulator never writes 01 as min next to 00
    as max. *)
Theorem X9_bool_statistics :
  ∀ (s : Generic.ColumnStats bool) (out : Statistics),
    Generic.has_values_ s = true →
    ∃ lo hi,
      BoolStats.EncodeToThrift s out
        = Done (mkStatistics (Some [lo]) (Some [hi]))
      ∧ BoolThrift.BytesNeededTotal s = 2
      ∧ (∀ slot, BoolStats.DecodePlainValue [lo] slot
                   = Done (true, Generic.min_value_ s)
                 ∧ BoolStats.DecodePlainValue [hi] slot
                   = Done (true, Generic.max_value_ s))
      ∧ (Generic.reachable s → ¬ (lo = Byte.x01 ∧ hi = Byte.x00)).
Proof.
  intros s out Hs. eexists _, _.
  split; [by apply BoolThriftFacts.EncodeToThrift_bool|].
  split; [done|]. split.
  - intros slot.
    by rewrite !BoolFacts.Decode_one, !BoolThriftFacts.bool_byte.
  - intros Hr%GenericFacts.reachable_ordered [Hlo Hhi].
    specialize (Hr Hs). unfold less_eq in Hr.
    by destruct (Generic.min_value_ s), (Generic.max_value_ s).
Qed.

Lemma X9_witness :
  let s := Generic.UpdateAll Samples.bools_new [true; false] in
  Generic.has_values_ s = true
  ∧ BoolStats.EncodeToThrift s (mkStatistics None None)
    = Done (mkStatistics (Some [Byte.x00]) (Some [Byte.x01])).
Proof.
  intros s. split; [reflexivity|].
  destruct (X9_bool_statistics s (mkStatistics None None) eq_refl)
    as (lo & hi & Henc & _).
  rewrite Henc. by injection Henc as -> ->.
Defined.

(** X10.  EncodeToThrift on a ColumnStats<StringValue> with values always
    completes, whatever the plain encoder's ByteSize and whatever
    plain_encoded_value_size_ is: it writes exactly the bytes that
    min_value_ and max_value_ refer to.  Materializing the accumulator
    first, and then changing memory outside its two buffers, does not
    change what it writes. *)
Theorem X10_string_statistics :
  ∀ (m : StringStats.memory) (E : ParquetPlainEncoder StringStats.StringValue)
    (s : StringStats.ColumnStats) (out : Statistics),
    StringStats.has_values_ s = true →
    StringStats.EncodeToThrift m s out
      = Done (mkStatistics
                (Some (StringStats.bytes_of m (StringStats.min_value_ s)))
                (Some (StringStats.bytes_of m (StringStats.max_value_ s))))
    ∧ (StringStats.wf s →
       let r := StringStats.MaterializeStringValuesToInternalBuffers m s in
       ∀ m' : StringStats.memory,
         m' !!! StringStats.buffer_ (StringStats.min_buffer_ s)
           = r.1 !!! StringStats.buffer_ (StringStats.min_buffer_ s) →
         m' !!! StringStats.buffer_ (StringStats.max_buffer_ s)
           = r.1 !!! StringStats.buffer_ (StringStats.max_buffer_ s) →
         StringStats.EncodeToThrift m' r.2 out
           = StringStats.EncodeToThrift m s out).
Proof.
  intros m E s out Hs.
  split; [by apply StringExtraFacts.string_EncodeToThrift_done|].
  intros Hwf r m' Hmb Hxb. subst r.
  destruct (StringExtraFacts.Materialize_frame m s) as (_ & Hhv & _).
  rewrite !StringExtraFacts.string_EncodeToThrift_done by congruence.
  by destruct (StringExtraFacts.Materialize_reported m m' s Hwf Hmb Hxb)
    as [-> ->].
Qed.

Lemma X10_witness :
  let m := Samples.batch in
  let s := fold_left (StringStats.Update m)
             [Samples.banana; Samples.apple; Samples.cherry]
             Samples.strings_new in
  let r := StringStats.MaterializeStringValuesToInternalBuffers m s in
  (StringStats.has_values_ s = true ∧ StringStats.wf s)
  ∧ StringStats.EncodeToThrift (H := string_size)
      (Samples.reuse r.1) r.2 (mkStatistics None None)
    = Done (mkStatistics (Some (list_byte_of_string "apple"))
                         (Some (list_byte_of_string "cherry"))).
Proof.
  intros m s r.
  assert (StringStats.wf s) as Hwf.
  { repeat apply StringFacts.wf_Update;
      first [ by split | by (split; [|split; right]) ]. }
  split; [by split|].
  destruct (X10_string_statistics m string_size s
              (mkStatistics None None) eq_refl) as [Henc Hmat].
  exact (eq_trans (Hmat Hwf (Samples.reuse r.1) eq_refl eq_refl) Henc).
Defined.

(** X11.  The representation invariant of the string accumulator (each
    value is the view of its own buffer or, with the buffer empty, a view
    of memory the accumulator does not own; the two buffers are distinct)
    is kept by Update with a value from memory the accumulator does not
    own, by any sequence of such Updates, by Merge with an accumulator
    whose min and max lie in such memory, and by materializing. *)
Theorem X11_string_invariant_kept :
  ∀ (m : StringStats.memory) (s : StringStats.ColumnStats),
    StringStats.wf s →
    (∀ v, StringStats.borrowed s v → StringStats.wf (StringStats.Update m s v))
    ∧ (∀ l, Forall (StringStats.borrowed s) l →
         StringStats.wf (fold_left (StringStats.Update m) l s))
    ∧ (∀ cs, StringStats.borrowed s (StringStats.min_value_ cs) →
         StringStats.borrowed s (StringStats.max_value_ cs) →
         StringStats.wf (StringStats.Merge m s cs))
    ∧ StringStats.wf
        (StringStats.MaterializeStringValuesToInternalBuffers m s).2.
Proof.
  intros m s Hwf. split; [|split; [|split]].
  - intros v. by apply StringFacts.wf_Update.
  - intros l. by apply StringExtraFacts.wf_UpdateAll.
  - intros cs. by apply StringFacts.wf_Merge.
  - by apply IdempotenceFacts.Materialize_result_wf.
Qed.

Lemma X11_witness :
  StringStats.wf Samples.strings_new
  ∧ StringStats.wf
      (StringStats.MaterializeStringValuesToInternalBuffers Samples.batch
         (StringStats.Update Samples.batch Samples.strings_new
            Samples.banana)).2.
Proof.
  assert (StringStats.wf Samples.strings_new) as Hwf
    by (by (split; [|split; right])).
  split; [exact Hwf|].
  assert (StringStats.borrowed Samples.strings_new Samples.banana) as Hb
    by (by split).
  pose proof (proj1 (X11_string_invariant_kept Samples.batch _ Hwf)
                Samples.banana Hb) as Hwf'.
  exact (proj2 (proj2 (proj2
           (X11_string_invariant_kept Samples.batch _ Hwf')))).
Defined.

(** X12.  Materializing writes to the blocks of the two owned buffers only;
    it changes neither has_values_ nor plain_encoded_value_size_ nor the
    lengths of min_value_ and max_value_, and the buffers keep their
    blocks. *)
Theorem X12_materialize_frame :
  ∀ (m : StringStats.memory) (s : StringStats.ColumnStats),
    let r := StringStats.MaterializeStringValuesToInternalBuffers m s in
    (∀ b : N,
       b ≠ StringStats.buffer_ (StringStats.min_buffer_ s) →
       b ≠ StringStats.buffer_ (StringStats.max_buffer_ s) →
       r.1 !! b = m !! b)
    ∧ StringStats.has_values_ r.2 = StringStats.has_values_ s
    ∧ StringStats.plain_encoded_value_size_ r.2
      = StringStats.plain_encoded_value_size_ s
    ∧ StringStats.buffer_ (StringStats.min_buffer_ r.2)
      = StringStats.buffer_ (StringStats.min_buffer_ s)
    ∧ StringStats.buffer_ (StringStats.max_buffer_ r.2)
      = StringStats.buffer_ (StringStats.max_buffer_ s)
    ∧ StringStats.len (StringStats.min_value_ r.2)
      = StringStats.len (StringStats.min_value_ s)
    ∧ StringStats.len (StringStats.max_value_ r.2)
      = StringStats.len (StringStats.max_value_ s).
Proof. apply StringExtraFacts.Materialize_frame. Qed.

(** X13.  Materializing in the middle of a stream does not change the
    statistics: for an accumulator that satisfies the representation
    invariant and values from memory it does not own, the Updates applied
    after materializing end with the has_values, and with min and max
    values of the same bytes, as the same Updates applied without
    materializing. *)
Theorem X13_materialize_midstream :
  ∀ (m : StringStats.memory) (s : StringStats.ColumnStats)
    (l : list StringStats.StringValue),
    StringStats.wf s → Forall (StringStats.borrowed s) l →
    let r := StringStats.MaterializeStringValuesToInternalBuffers m s in
    let after := fold_left (StringStats.Update r.1) l r.2 in
    let plain := fold_left (StringStats.Update m) l s in
    StringStats.has_values_ after = StringStats.has_values_ plain
    ∧ StringStats.bytes_of r.1 (StringStats.min_value_ after)
      = StringStats.bytes_of m (StringStats.min_value_ plain)
    ∧ StringStats.bytes_of r.1 (StringStats.max_value_ after)
      = StringStats.bytes_of m (StringStats.max_value_ plain).
Proof.
  intros m s l Hwf Hl r after plain.
  destruct (StringExtraFacts.Materialize_frame m s) as (_ & Hhv & _).
  destruct (StringExtraFacts.Materialize_reported m r.1 s Hwf eq_refl eq_refl)
    as [Hlo Hhi].
  apply StringExtraFacts.UpdateAll_same_report; try done.
  eapply Forall_impl; [exact Hl|]. intros v Hv.
  by apply StringExtraFacts.Materialize_borrowed.
Qed.

Lemma X13_witness :
  let m := Samples.batch in
  let s := StringStats.Update m Samples.strings_new Samples.banana in
  let l := [Samples.apple; Samples.cherry] in
  let r := StringStats.MaterializeStringValuesToInternalBuffers m s in
  (StringStats.wf s ∧ Forall (StringStats.borrowed s) l)
  ∧ StringStats.bytes_of r.1
      (StringStats.min_value_ (fold_left (StringStats.Update r.1) l r.2))
    = list_byte_of_string "apple".
Proof.
  intros m s l r.
  assert (StringStats.wf s) as Hwf.
  { apply StringFacts.wf_Update;
      first [ by split | by (split; [|split; right]) ]. }
  assert (Forall (StringStats.borrowed s) l) as Hl
    by (repeat constructor; discriminate).
  split; [by split|].
  exact (proj1 (proj2 (X13_materialize_midstream m s l Hwf Hl))).
Defined.

(** X14.  For the integer instantiations a non-empty sequence fed to an
    empty accumulator leaves min_value_ the [Z.min] and max_value_ the
    [Z.max] of the values; for ColumnStats<bool> it leaves min_value_ their
    conjunction and max_value_ their disjunction. *)
Theorem X14_integer_and_boolean_extrema :
  (∀ (s0 : Generic.ColumnStats Z) (v : Z) (l : list Z),
     Generic.has_values_ s0 = false →
     Generic.UpdateAll s0 (v :: l)
       = Generic.mkStats true (fold_left Z.min l v) (fold_left Z.max l v)
           (Generic.plain_encoded_value_size_ s0))
  ∧ (∀ (s0 : Generic.ColumnStats bool) (v : bool) (l : list bool),
       Generic.has_values_ s0 = false →
       Generic.UpdateAll s0 (v :: l)
         = Generic.mkStats true (fold_left andb l v) (fold_left orb l v)
             (Generic.plain_encoded_value_size_ s0)).
Proof.
  split; intros s0 v l Hs0;
    change (Generic.UpdateAll s0 (v :: l))
      with (Generic.UpdateAll (Generic.Update s0 v) l).
  - rewrite (SizeFacts.UpdateAll_fold Z.min Z.max l SizeFacts.std_min_Z
               SizeFacts.std_max_Z) by apply GenericFacts.Update_has_values.
    by rewrite GenericFacts.Update_fresh.
  - rewrite (SizeFacts.UpdateAll_fold andb orb l SizeFacts.std_min_bool
               SizeFacts.std_max_bool) by apply GenericFacts.Update_has_values.
    by rewrite GenericFacts.Update_fresh.
Qed.

Lemma X14_witness :
  Generic.has_values_ Samples.ints_new = false
  ∧ Generic.UpdateAll Samples.ints_new [5; 1; 9; 3]
    = Generic.mkStats true (fold_left Z.min [1; 9; 3] 5)
        (fold_left Z.max [1; 9; 3] 5) (-1).
Proof.
  split; [reflexivity|].
  exact (proj1 X14_integer_and_boolean_extrema Samples.ints_new 5 [1; 9; 3]
           eq_refl).
Defined.

(** X15.  An Update with a value that the accumulator covers returns the
    accumulator as it is, and so does a Merge with an accumulator whose min
    and max it covers.  For a reachable string accumulator with values, an
    Update with a value that holds the bytes of its min_value_ or of its
    max_value_ changes nothing, the buffers included: a repeated extremum
    never invalidates a materialized copy. *)
Theorem X15_covered_values_change_nothing :
  (∀ (T : Type) (L : Less T) (s cs : Generic.ColumnStats T) (v : T),
     (Extent.covers s v → Generic.Update s v = s)
     ∧ (Generic.has_values_ cs = true →
        Extent.covers s (Generic.min_value_ cs) →
        Extent.covers s (Generic.max_value_ cs) →
        Generic.Merge s cs = s))
  ∧ (∀ (m : StringStats.memory) (s : StringStats.ColumnStats)
       (v : StringStats.StringValue),
     StringStats.reachable m s → StringStats.has_values_ s = true →
     StringStats.bytes_of m v
       = StringStats.bytes_of m (StringStats.min_value_ s)
     ∨ StringStats.bytes_of m v
       = StringStats.bytes_of m (StringStats.max_value_ s) →
     StringStats.Update m s v = s).
Proof.
  split.
  - intros T L s cs v. split.
    + apply ExtentFacts.Update_in_range.
    + apply ExtentFacts.Merge_in_range.
  - intros m s v Hr Hs Hv.
    pose proof (StringMergeFacts.string_reachable_ordered m s Hr Hs) as Hord.
    apply StringExtraFacts.string_Update_in_range; [done|..].
    + destruct Hv as [Hv|Hv].
      * rewrite (StringExtraFacts.string_lt_ext m m (StringStats.min_value_ s)
                   (StringStats.min_value_ s) v (StringStats.min_value_ s))
          by done.
        apply StringMergeFacts.lt_irrefl.
      * by rewrite (StringExtraFacts.string_lt_ext m m
                      (StringStats.max_value_ s) (StringStats.min_value_ s)
                      v (StringStats.min_value_ s)).
    + destruct Hv as [Hv|Hv].
      * by rewrite (StringExtraFacts.string_lt_ext m m
                      (StringStats.max_value_ s) (StringStats.min_value_ s)
                      (StringStats.max_value_ s) v).
      * rewrite (StringExtraFacts.string_lt_ext m m (StringStats.max_value_ s)
                   (StringStats.max_value_ s) (StringStats.max_value_ s) v)
          by done.
        apply StringMergeFacts.lt_irrefl.
Qed.

(** An accumulator fed its own minimum again: nothing changes. *)
Lemma X15_witness :
  let m := Samples.batch in
  let s := fold_left (StringStats.Update m)
             [Samples.banana; Samples.apple; Samples.cherry]
             Samples.strings_new in
  (StringStats.reachable m s ∧ StringStats.has_values_ s = true
   ∧ StringStats.bytes_of m Samples.apple
     = StringStats.bytes_of m (StringStats.min_value_ s))
  ∧ StringStats.Update m s Samples.apple = s.
Proof.
  intros m s.
  assert (StringStats.reachable m s) as Hr.
  { repeat apply StringStats.reach_update. by apply StringStats.reach_new. }
  split; [by repeat split|].
  exact (proj2 X15_covered_values_change_nothing m s Samples.apple Hr eq_refl
           (or_introl eq_refl)).
Defined.
